(** * recursive-call-tracker: the call tree, the tracker and the printer

    A shallow embedding of [recursive_call_tracker/call_tracker.py].

    Python objects are identified by their position in an object store
    (a list of records, never shrunk: the tracker keeps every record it
    creates); a reference to a [RecursiveCall] is an index into that store,
    so that two references to one record alias, as they do in Python. *)

From stdpp Require Import gmap strings list fin_maps pretty.
From Stdlib Require Import ZArith Lia.

Local Set Warnings "-register-all".
Local Open Scope Z_scope.
Local Open Scope nat_scope.

(** ** Data model *)

(** A reference to a [RecursiveCall] object: its position in the store. *)
Abbreviation ref := nat (only parsing).

Section Model.

(** Python values, and the failures the wrapped function may raise. *)
Context {value exn : Type}.

(** [Uninitialized.UNINITIALIZED], or the value the call returned. *)
Inductive Result :=
  | UNINITIALIZED
  | Value (v : value).

(** What [list.pop] raises on an empty list, or a failure of the wrapped
    function. *)
Inductive failure :=
  | IndexError
  | Failure (e : exn).

Inductive outcome :=
  | Returned (v : value)
  | Raised (e : failure).

Record RecursiveCall := mkRecursiveCall {
  caller : option ref;
  callees : list ref;
  args : list value;
  kwargs : list (string * value);
  result : Result
}.

(** [RecursiveCall.__init__] with the default [caller=None]. *)
Definition RecursiveCall_init (a : list value) (kw : list (string * value))
  : RecursiveCall :=
  {| caller := None; callees := []; args := a; kwargs := kw;
     result := UNINITIALIZED |}.

Definition append_callee (callee : ref) (r : RecursiveCall) : RecursiveCall :=
  {| caller := caller r; callees := callees r ++ [callee]; args := args r;
     kwargs := kwargs r; result := result r |}.

Definition set_caller (c : option ref) (r : RecursiveCall) : RecursiveCall :=
  {| caller := c; callees := callees r; args := args r;
     kwargs := kwargs r; result := result r |}.

Definition set_result (res : Result) (r : RecursiveCall) : RecursiveCall :=
  {| caller := caller r; callees := callees r; args := args r;
     kwargs := kwargs r; result := res |}.

(** [RecursiveCall.add_callee]: two assignments, no check of any kind. *)
Definition add_callee (self callee : ref) (h : list RecursiveCall)
  : list RecursiveCall :=
  alter (set_caller (Some self)) callee (alter (append_callee callee) self h).

(** The object store together with the two attributes of a [CallTracker]:
    [_call_stacks] is the [defaultdict(list)] keyed by thread identifier (a
    stack grows at its end, [call_stack[-1]] is its top), [start_calls] the
    list of root calls. *)
Record State := mkState {
  heap : list RecursiveCall;
  _call_stacks : gmap Z (list ref);
  start_calls : list ref
}.

(** [CallTracker.__init__]. *)
Definition CallTracker_init : State :=
  {| heap := []; _call_stacks := ∅; start_calls := [] |}.

(** The stack of a thread as the [defaultdict] shows it. *)
Definition call_stack_of (tid : Z) (st : State) : list ref :=
  default [] (_call_stacks st !! tid).

(** ** The wrapper *)

(** The wrapped function as the tracker sees it: it returns, raises, or
    calls the instrumented function again (directly or through functions
    that are not tracked) and goes on with whatever that call produced. *)
Inductive body :=
  | Return (v : value)
  | Raise (e : failure)
  | Call (a : list value) (kw : list (string * value)) (k : outcome → body).

(** Lines 126-134 of the wrapper: create the record, fetch the stack of the
    thread (creating it when absent), attach the record or make it a root,
    push it. *)
Definition enter (tid : Z) (a : list value) (kw : list (string * value))
    (st : State) : State :=
  let call := length (heap st) in
  let h := heap st ++ [RecursiveCall_init a kw] in
  let call_stack := call_stack_of tid st in
  match last call_stack with
  | Some top =>
      {| heap := add_callee top call h;
         _call_stacks := <[tid := call_stack ++ [call]]> (_call_stacks st);
         start_calls := start_calls st |}
  | None =>
      {| heap := h;
         _call_stacks := <[tid := call_stack ++ [call]]> (_call_stacks st);
         start_calls := start_calls st ++ [call] |}
  end.

(** Line 138, [call_stack.pop().result = result]: pop whatever is on top of
    the stack of the thread and store the result in it. *)
Definition leave (tid : Z) (r : value) (st : State) : option State :=
  let call_stack := call_stack_of tid st in
  match last call_stack with
  | None => None
  | Some top =>
      Some {| heap := alter (set_result (Value r)) top (heap st);
              _call_stacks := <[tid := removelast call_stack]> (_call_stacks st);
              start_calls := start_calls st |}
  end.

Section Wrapper.

Variable rec : list value → list (string * value) → State
               → option (outcome * State).

(** Running the wrapped function: every re-entrant call goes through [rec]. *)
Fixpoint run_body (b : body) (st : State) : option (outcome * State) :=
  match b with
  | Return v => Some (Returned v, st)
  | Raise e => Some (Raised e, st)
  | Call a kw k =>
      match rec a kw st with
      | None => None
      | Some (o, st') => run_body (k o) st'
      end
  end.

End Wrapper.

(** [CallTracker.__call__(func)], the wrapper, called on thread [tid]. The
    fuel bounds the depth of re-entrant calls; [None] is a computation that
    exceeds it. A failure of [func] leaves through the call of line 136:
    nothing after it runs. *)
Fixpoint wrapper (fuel : nat)
    (func : list value → list (string * value) → body) (tid : Z)
    (a : list value) (kw : list (string * value)) (st : State)
  : option (outcome * State) :=
  match fuel with
  | 0 => None
  | S fuel' =>
      let st1 := enter tid a kw st in
      match run_body (wrapper fuel' func tid) (func a kw) st1 with
      | None => None
      | Some (Raised e, st2) => Some (Raised e, st2)
      | Some (Returned r, st2) =>
          match leave tid r st2 with
          | None => Some (Raised IndexError, st2)
          | Some st3 => Some (Returned r, st3)
          end
      end
  end.

(** ** Executions *)

(** One invocation of the function as it unfolded: its arguments, the
    tracked invocations made while it was active, in order, and how it
    ended. *)
Inductive invocation :=
  | Invocation (a : list value) (kw : list (string * value))
      (subs : list invocation) (o : outcome).

Definition outcome_of (t : invocation) : outcome :=
  match t with Invocation _ _ _ o => o end.

Section Execute.

Variable rec : list value → list (string * value) → option invocation.

Fixpoint trace_body (b : body) : option (list invocation * outcome) :=
  match b with
  | Return v => Some ([], Returned v)
  | Raise e => Some ([], Raised e)
  | Call a kw k =>
      match rec a kw with
      | None => None
      | Some t =>
          match trace_body (k (outcome_of t)) with
          | None => None
          | Some (ts, o) => Some (t :: ts, o)
          end
      end
  end.

End Execute.

(** The function without the tracker: what it computes, and the nest of
    invocations it goes through on the way. *)
Fixpoint execute (fuel : nat)
    (func : list value → list (string * value) → body)
    (a : list value) (kw : list (string * value)) : option invocation :=
  match fuel with
  | 0 => None
  | S fuel' =>
      match trace_body (execute fuel' func) (func a kw) with
      | None => None
      | Some (subs, o) => Some (Invocation a kw subs o)
      end
  end.

(** What the wrapper does to the tracker along a given execution. *)
Fixpoint track (tid : Z) (t : invocation) (st : State) : State :=
  match t with
  | Invocation a kw subs o =>
      let st2 := foldl (λ s t', track tid t' s) (enter tid a kw st) subs in
      match o with
      | Returned r => default st2 (leave tid r st2)
      | Raised _ => st2
      end
  end.

Definition track_all (tid : Z) (ts : list invocation) (st : State) : State :=
  foldl (λ s t, track tid t s) st ts.

(** Every invocation of the execution returned. *)
Fixpoint normal (t : invocation) : Prop :=
  match t with
  | Invocation _ _ subs o =>
      (∃ r, o = Returned r) ∧
      (fix all (l : list invocation) : Prop :=
         match l with [] => True | t' :: l' => normal t' ∧ all l' end) subs
  end.

Fixpoint size (t : invocation) : nat :=
  match t with
  | Invocation _ _ subs _ => S (foldr (λ t' n, size t' + n) 0 subs)
  end.

Definition sizes (ts : list invocation) : nat :=
  foldr (λ t n, size t + n) 0 ts.

(** ** The forest the tracker builds *)

(** A call tree as it sits in the object store: the reference of the record,
    its arguments, its result, and the trees of its callees, in order. *)
Inductive call_tree :=
  | Node (c : ref) (a : list value) (kw : list (string * value))
      (res : Result) (children : list call_tree).

Definition root (t : call_tree) : ref :=
  match t with Node c _ _ _ _ => c end.

Definition children_of (t : call_tree) : list call_tree :=
  match t with Node _ _ _ _ children => children end.

(** The references of a tree, parents before children, children in order. *)
Fixpoint refs (t : call_tree) : list ref :=
  match t with
  | Node c _ _ _ children => c :: concat (map refs children)
  end.

Fixpoint nodes (t : call_tree) : nat :=
  match t with
  | Node _ _ _ _ children => S (foldr (λ t' n, nodes t' + n) 0 children)
  end.

(** The nodes of a tree that have callees. *)
Fixpoint parents (t : call_tree) : nat :=
  match t with
  | Node _ _ _ _ children =>
      match children with [] => 0 | _ :: _ => 1 end
      + foldr (λ t' n, parents t' + n) 0 children
  end.

(** The references of a tree with the depth of each in it, the root being
    at depth [d]. *)
Fixpoint depths (d : nat) (t : call_tree) : list (ref * nat) :=
  match t with
  | Node c _ _ _ children => (c, d) :: concat (map (depths (S d)) children)
  end.

(** The store holds the tree [t] below the record [p]: the record of every
    node has the fields of the node, the references of its children as its
    callees, and its parent as its caller. *)
Inductive embeds (h : list RecursiveCall) : option ref → call_tree → Prop :=
  | embeds_node p c a kw res children :
      h !! c = Some {| caller := p; callees := map root children; args := a;
                       kwargs := kw; result := res |} →
      Forall (embeds h (Some c)) children →
      embeds h p (Node c a kw res children).

(** The number of [caller] links between a record and its root. *)
Inductive has_depth (h : list RecursiveCall) : ref → nat → Prop :=
  | has_depth_root c r :
      h !! c = Some r → caller r = None → has_depth h c 0
  | has_depth_callee c r p d :
      h !! c = Some r → caller r = Some p → has_depth h p d →
      has_depth h c (S d).

Definition result_of (o : outcome) : Result :=
  match o with
  | Returned r => Value r
  | Raised _ => UNINITIALIZED
  end.

(** The references the invocations [subs] get when the first of them is
    given [n]: an invocation takes as many references as it has nodes. *)
Fixpoint child_refs (n : ref) (subs : list invocation) : list ref :=
  match subs with
  | [] => []
  | t :: subs' => n :: child_refs (n + size t) subs'
  end.

(** The tree an execution in which every call returned leaves in the store
    when its root is given the reference [n]. *)
Fixpoint label (n : ref) (t : invocation) : call_tree :=
  match t with
  | Invocation a kw subs o =>
      Node n a kw (result_of o)
        ((fix go (m : ref) (l : list invocation) : list call_tree :=
            match l with
            | [] => []
            | t' :: l' => label m t' :: go (m + size t') l'
            end) (S n) subs)
  end.

Fixpoint label_all (n : ref) (ts : list invocation) : list call_tree :=
  match ts with
  | [] => []
  | t :: ts' => label n t :: label_all (n + size t) ts'
  end.

(** The records of that tree, in the order of their creation. *)
Fixpoint records (n : ref) (p : option ref) (t : invocation)
  : list RecursiveCall :=
  match t with
  | Invocation a kw subs o =>
      {| caller := p; callees := child_refs (S n) subs; args := a;
         kwargs := kw; result := result_of o |}
      :: (fix go (m : ref) (l : list invocation) : list RecursiveCall :=
            match l with
            | [] => []
            | t' :: l' => records m (Some n) t' ++ go (m + size t') l'
            end) (S n) subs
  end.

Fixpoint records_all (n : ref) (p : option ref) (ts : list invocation)
  : list RecursiveCall :=
  match ts with
  | [] => []
  | t :: ts' => records n p t ++ records_all (n + size t) p ts'
  end.

Definition extend_callees (cs : list ref) (r : RecursiveCall) : RecursiveCall :=
  {| caller := caller r; callees := callees r ++ cs; args := args r;
     kwargs := kwargs r; result := result r |}.

(** What [enter] does to the records that were there before the call. *)
Definition attach (top : option ref) (c : ref) (h : list RecursiveCall)
  : list RecursiveCall :=
  match top with
  | Some p => alter (append_callee c) p h
  | None => h
  end.

(** The tracker after an execution in which every call returned: the
    records of the execution come after those that were there, its root
    is attached to the top of the stack, or is a new root call, and the
    stack is as it was. *)
Definition after_normal (tid : Z) (t : invocation) (st : State) : State :=
  {| heap := attach (last (call_stack_of tid st)) (length (heap st)) (heap st)
             ++ records (length (heap st)) (last (call_stack_of tid st)) t;
     _call_stacks := <[tid := call_stack_of tid st]> (_call_stacks st);
     start_calls := start_calls st
                    ++ match last (call_stack_of tid st) with
                       | Some _ => []
                       | None => [length (heap st)]
                       end |}.

(** The record on top of the stack of the thread, if any, is in the store. *)
Definition top_in_store (tid : Z) (st : State) : Prop :=
  ∀ top, last (call_stack_of tid st) = Some top → top < length (heap st).

(** The parent [p] is at depth [d - 1], or there is no parent and [d = 0]. *)
Definition parent_depth (h : list RecursiveCall) (p : option ref)
    (d : nat) : Prop :=
  match p with
  | None => d = 0
  | Some q => ∃ d', d = S d' ∧ has_depth h q d'
  end.

(** A caller making one call after the other on thread [tid]. *)
Fixpoint wrapper_seq (fuel : nat)
    (func : list value → list (string * value) → body) (tid : Z)
    (calls : list (list value * list (string * value))) (st : State)
  : option (list outcome * State) :=
  match calls with
  | [] => Some ([], st)
  | (a, kw) :: calls' =>
      match wrapper fuel func tid a kw st with
      | None => None
      | Some (o, st') =>
          match wrapper_seq fuel func tid calls' st' with
          | None => None
          | Some (os, st'') => Some (o :: os, st'')
          end
      end
  end.

(** The invocations of an execution in the order in which they began,
    numbered from [n], each with the number of tracked calls that were active
    on the thread when it began, [d] of them being active at the start. *)
Fixpoint nesting (n d : nat) (t : invocation) : list (ref * nat) :=
  match t with
  | Invocation _ _ subs _ =>
      (n, d)
      :: (fix go (m : ref) (l : list invocation) : list (ref * nat) :=
            match l with
            | [] => []
            | t' :: l' => nesting m (S d) t' ++ go (m + size t') l'
            end) (S n) subs
  end.

Fixpoint nesting_all (n d : nat) (ts : list invocation) : list (ref * nat) :=
  match ts with
  | [] => []
  | t :: ts' => nesting n d t ++ nesting_all (n + size t) d ts'
  end.

End Model.

Arguments Result : clear implicits.
Arguments failure : clear implicits.
Arguments outcome : clear implicits.
Arguments RecursiveCall : clear implicits.
Arguments State : clear implicits.
Arguments body : clear implicits.
Arguments invocation : clear implicits.
Arguments call_tree : clear implicits.

(** ** The printer *)

(** What the printer asks of the values: [repr] of a value and of the tuple
    of positional arguments, and the formatter of keyword arguments of
    [recursive_call_tracker.utils]. *)
Class Repr (value : Type) := {
  repr : value → string;
  repr_args : list value → string;
  prettify_kwargs_repr : list (string * value) → string
}.

Section Printer.

Context {value : Type} `{!Repr value}.

(** [Uninitialized.__repr__] is the name of the member. *)
Definition repr_result (r : Result value) : string :=
  match r with
  | UNINITIALIZED => "UNINITIALIZED"
  | Value v => repr v
  end.

Fixpoint str_repeat (s : string) (n : nat) : string :=
  match n with
  | 0 => ""
  | S n' => s +:+ str_repeat s n'
  end.

(** [s * n] on a Python string: empty when [n] is not positive. *)
Definition str_mul (s : string) (n : Z) : string := str_repeat s (Z.to_nat n).

(** [RecursiveCall._indent_from_depth]. *)
Definition _indent_from_depth (depth indent : Z) (hanging : bool) : string :=
  let indent_width := if decide (depth = 0%Z) then 0%Z
                      else (indent * depth * 2)%Z in
  let indent_width := if hanging then (indent_width + indent)%Z
                      else indent_width in
  str_mul " " indent_width.

(** The five lines printed when a record is met for the first time
    (lines 69-83). *)
Definition node_lines (depth indent : Z) (r : RecursiveCall value)
  : list string :=
  let hanging_indent := _indent_from_depth depth indent true in
  [ _indent_from_depth depth indent false +:+ "RecursiveCall";
    hanging_indent +:+ "result=" +:+ repr_result (result r);
    hanging_indent +:+ "args=" +:+ repr_args (args r);
    hanging_indent +:+ "kwargs=" +:+ prettify_kwargs_repr (kwargs r) +:+ ")";
    match callees r with
    | [] => hanging_indent +:+ "callees=[]"
    | _ :: _ => hanging_indent +:+ "callees=["
    end ].

(** The line printed when the callees of a record are exhausted
    (lines 88-91). *)
Definition closing_lines (depth indent : Z) (r : RecursiveCall value)
  : list string :=
  match callees r with
  | [] => []
  | _ :: _ => [_indent_from_depth depth indent true +:+ "],"]
  end.

(** The variables of the loop and what was printed so far. An iterator over
    a list that nobody changes is a position in it. *)
Record pp_state := mkPP {
  current : option ref;
  depth : Z;
  callee_iterators : gmap ref nat;
  output : list string
}.

(** One turn of the [while] loop, [current] being the record [cur]. *)
Definition pp_iteration (h : list (RecursiveCall value)) (indent : Z)
    (cur : ref) (s : pp_state) : option pp_state :=
  match h !! cur with
  | None => None
  | Some r =>
      let '(its, out) :=
        match callee_iterators s !! cur with
        | None => (<[cur := 0]> (callee_iterators s),
                   output s ++ node_lines (depth s) indent r)
        | Some _ => (callee_iterators s, output s)
        end in
      let pos := default 0 (its !! cur) in
      match callees r !! pos with
      | Some callee =>
          Some {| current := Some callee; depth := (depth s + 1)%Z;
                  callee_iterators := <[cur := S pos]> its; output := out |}
      | None =>
          Some {| current := caller r; depth := (depth s - 1)%Z;
                  callee_iterators := its;
                  output := out ++ closing_lines (depth s) indent r |}
      end
  end.

Fixpoint pp_loop (fuel : nat) (h : list (RecursiveCall value)) (indent : Z)
    (s : pp_state) : option pp_state :=
  match current s with
  | None => Some s
  | Some cur =>
      match fuel with
      | 0 => None
      | S fuel' =>
          match pp_iteration h indent cur s with
          | None => None
          | Some s' => pp_loop fuel' h indent s'
          end
      end
  end.

Definition pp_start (self : ref) : pp_state :=
  {| current := Some self; depth := 0; callee_iterators := ∅; output := [] |}.

(** [RecursiveCall.pretty_print]: the lines printed, when the loop ends
    within [fuel] turns. *)
Definition pretty_print (fuel : nat) (h : list (RecursiveCall value))
    (self : ref) (indent : Z) : option (list string) :=
  output <$> pp_loop fuel h indent (pp_start self).

(** The rendering of a tree in words: a header, the three fields one level
    further in, then the callees between an opening and a closing marker,
    or the empty marker. A node at depth [d] has its header after
    [indent * d * 2] spaces and its other lines, the closing marker
    included, after [indent] more. *)
Definition head_lines (indent d : Z) (a : list value)
    (kw : list (string * value)) (res : Result value) : list string :=
  let header_indent := str_mul " " (indent * d * 2) in
  let hanging_indent := str_mul " " (indent * d * 2 + indent) in
  [ header_indent +:+ "RecursiveCall";
    hanging_indent +:+ "result=" +:+ repr_result res;
    hanging_indent +:+ "args=" +:+ repr_args a;
    hanging_indent +:+ "kwargs=" +:+ prettify_kwargs_repr kw +:+ ")" ].

Definition opening_marker (indent d : Z) : string :=
  str_mul " " (indent * d * 2 + indent) +:+ "callees=[".

Definition closing_marker (indent d : Z) : string :=
  str_mul " " (indent * d * 2 + indent) +:+ "],".

Definition empty_marker (indent d : Z) : string :=
  str_mul " " (indent * d * 2 + indent) +:+ "callees=[]".

Fixpoint render (indent d : Z) (t : call_tree value) : list string :=
  match t with
  | Node c a kw res children =>
      head_lines indent d a kw res
      ++ match children with
         | [] => [empty_marker indent d]
         | _ :: _ =>
             [opening_marker indent d]
             ++ concat (map (render indent (d + 1)) children)
             ++ [closing_marker indent d]
         end
  end.

(** ** The course of the loop *)

(** [n] turns of the loop, [current] being a record at each of them. *)
Fixpoint pp_turns (n : nat) (h : list (RecursiveCall value)) (indent : Z)
    (s : pp_state) : option pp_state :=
  match n with
  | 0 => Some s
  | S n' =>
      match current s with
      | None => None
      | Some cur =>
          match pp_iteration h indent cur s with
          | None => None
          | Some s' => pp_turns n' h indent s'
          end
      end
  end.

(** The iterator of the record [x] is exhausted. *)
Definition exhausted_in (h : list (RecursiveCall value))
    (its : gmap ref nat) (x : ref) : Prop :=
  ∃ rx k, h !! x = Some rx ∧ its !! x = Some k ∧ length (callees rx) ≤ k.

(** A callee that the loop comes to is either new to it, with all below it,
    or was gone through already, with all below it. *)
Definition known (visited : bool) (h : list (RecursiveCall value))
    (its : gmap ref nat) (t : call_tree value) : Prop :=
  ∀ x, x ∈ refs t →
       if visited then exhausted_in h its x else its !! x = None.

(** The turns the loop spends on a tree, from the turn that comes to its
    root to the turn that leaves it for its caller. *)
Fixpoint tree_turns (t : call_tree value) : nat :=
  match t with
  | Node _ _ _ _ children =>
      S (foldr (λ t' n, S (tree_turns t' + n)) 0 children)
  end.

Definition turns (visited : bool) (t : call_tree value) : nat :=
  if visited then 1 else tree_turns t.

(** What the loop prints on coming again to a tree it has gone through. *)
Definition reclose (indent d : Z) (t : call_tree value) : list string :=
  match children_of t with
  | [] => []
  | _ :: _ => [closing_marker indent d]
  end.

Definition lines (visited : bool) (indent d : Z) (t : call_tree value)
  : list string :=
  if visited then reclose indent d t else render indent d t.

Definition turns_all (todo : list (call_tree value * bool)) : nat :=
  foldr (λ tb n, S (turns tb.2 tb.1 + n)) 0 todo.

Definition lines_all (indent d : Z) (todo : list (call_tree value * bool))
  : list string :=
  concat (map (λ tb, lines tb.2 indent d tb.1) todo).

(** The loop, coming to the root of [t] at depth [d] with [t] known or new
    to it, goes through [t] and leaves it for [p] at depth [d - 1], having
    printed the lines of [t] and exhausted the iterators of [t], those of
    other records being as they were. *)
Definition goes_through (h : list (RecursiveCall value)) (indent : Z)
    (visited : bool) (t : call_tree value) (p : option ref) (d : Z) : Prop :=
  ∀ its, known visited h its t →
  ∃ its',
    (∀ out,
       pp_turns (turns visited t) h indent
         {| current := Some (root t); depth := d; callee_iterators := its;
            output := out |}
       = Some {| current := p; depth := (d - 1)%Z; callee_iterators := its';
                 output := out ++ lines visited indent d t |})
    ∧ (∀ y, y ∉ refs t → its' !! y = its !! y)
    ∧ known true h its' t.

(** ** A tree around one of its nodes *)

(** An ancestor of the node: its own fields, the siblings before the node
    (or before the ancestor below) and those after. *)
Record frame := mkFrame {
  frame_ref : ref;
  frame_args : list value;
  frame_kwargs : list (string * value);
  frame_result : Result value;
  elder : list (call_tree value);
  younger : list (call_tree value)
}.

Definition fill (f : frame) (t : call_tree value) : call_tree value :=
  Node (frame_ref f) (frame_args f) (frame_kwargs f) (frame_result f)
    (elder f ++ t :: younger f).

(** The whole tree: [ctx] lists the ancestors of [t], the nearest first. *)
Fixpoint plug (ctx : list frame) (t : call_tree value) : call_tree value :=
  match ctx with
  | [] => t
  | f :: ctx' => plug ctx' (fill f t)
  end.

Definition parent_of (ctx : list frame) : option ref :=
  match ctx with
  | [] => None
  | f :: _ => Some (frame_ref f)
  end.

(** What [pretty_print] goes on to print once it has gone through the tree
    [t] it was called on, [d] being the depth it has come back to: each
    ancestor in turn, with the siblings of the tree it came from in full but
    for that tree, of which the closing marker comes again. *)
Fixpoint climb (indent d : Z) (t : call_tree value) (ctx : list frame)
  : list string :=
  match ctx with
  | [] => []
  | f :: ctx' =>
      head_lines indent d (frame_args f) (frame_kwargs f) (frame_result f)
      ++ [opening_marker indent d]
      ++ concat (map (render indent (d + 1)) (elder f))
      ++ reclose indent (d + 1) t
      ++ concat (map (render indent (d + 1)) (younger f))
      ++ [closing_marker indent d]
      ++ climb indent (d - 1) (fill f t) ctx'
  end.

End Printer.

Arguments pp_state : clear implicits.
Arguments frame : clear implicits.

(** ** The one-line representation *)

(** What [RecursiveCall.__repr__] asks of the values: [str] of a value (an
    f-string formats a field with [format], which is [str] here) and [repr]
    of the dictionary of keyword arguments. *)
Class Str (value : Type) := {
  str : value → string;
  repr_kwargs : list (string * value) → string
}.

Section Repr_method.

Context {value : Type} `{!Repr value} `{!Str value}.

(** [Uninitialized.__str__] is the name of the member. *)
Definition str_result (r : Result value) : string :=
  match r with
  | UNINITIALIZED => "UNINITIALIZED"
  | Value v => str v
  end.

(** The text of [__repr__] around the representations of the callees; the
    callees are a list, whose representation is that of its elements
    between brackets. *)
Definition repr_around (reprs : list string) (a : list value)
    (kw : list (string * value)) (res : Result value) : string :=
  "<RecursiveCall callees=[" +:+ String.concat ", " reprs
  +:+ "] args=" +:+ repr_args a
  +:+ " kwargs=" +:+ repr_kwargs kw
  +:+ " result=" +:+ str_result res +:+ ")".

(** [RecursiveCall.__repr__], which calls itself on every callee; the fuel
    bounds the depth of these calls. *)
Fixpoint RecursiveCall_repr (fuel : nat) (h : list (RecursiveCall value))
    (self : ref) : option string :=
  match fuel with
  | 0 => None
  | S fuel' =>
      match h !! self with
      | None => None
      | Some r =>
          match mapM (RecursiveCall_repr fuel' h) (callees r) with
          | None => None
          | Some reprs =>
              Some (repr_around reprs (args r) (kwargs r) (result r))
          end
      end
  end.

(** The representation of a tree. *)
Fixpoint repr_text (t : call_tree value) : string :=
  match t with
  | Node _ a kw res children => repr_around (map repr_text children) a kw res
  end.

(** The records on the longest way down from the root of a tree. *)
Fixpoint levels (t : call_tree value) : nat :=
  match t with
  | Node _ _ _ _ children => S (foldr (λ t' n, levels t' `max` n) 0 children)
  end.

End Repr_method.

(** * Instances on which the model is run *)

(** Values are integers, failures are messages. *)
Definition repr_Z (v : Z) : string := pretty v.

Definition repr_tuple_Z (l : list Z) : string :=
  match l with
  | [v] => "(" +:+ pretty v +:+ ",)"
  | _ => "(" +:+ String.concat ", " (map pretty l) +:+ ")"
  end.

Definition kwargs_Z (kw : list (string * Z)) : string :=
  String.concat ", " (map (λ p, p.1 +:+ "=" +:+ pretty p.2) kw).

#[global] Instance Repr_Z : Repr Z :=
  {| repr := repr_Z; repr_args := repr_tuple_Z;
     prettify_kwargs_repr := kwargs_Z |}.

Definition repr_dict_Z (kw : list (string * Z)) : string :=
  "{" +:+ String.concat ", " (map (λ p, "'" +:+ p.1 +:+ "': " +:+ pretty p.2) kw)
  +:+ "}".

#[global] Instance Str_Z : Str Z :=
  {| str := repr_Z; repr_kwargs := repr_dict_Z |}.

(** [fib(n) = n if n < 2 else fib(n - 1) + fib(n - 2)], a failure below it
    going up unchanged. *)
Definition fib (a : list Z) (kw : list (string * Z)) : body Z string :=
  match a with
  | [n] =>
      if decide (n < 2)%Z then Return n
      else Call [(n - 1)%Z] [] (λ o1,
             match o1 with
             | Raised e => Raise e
             | Returned x =>
                 Call [(n - 2)%Z] [] (λ o2,
                   match o2 with
                   | Raised e => Raise e
                   | Returned y => Return (x + y)%Z
                   end)
             end)
  | _ => Raise (Failure "TypeError")
  end.

(** A function that fails on a negative argument and returns its argument
    otherwise. *)
Definition checked (a : list Z) (kw : list (string * Z)) : body Z string :=
  match a with
  | [n] => if decide (n < 0)%Z then Raise (Failure "ValueError") else Return n
  | _ => Raise (Failure "TypeError")
  end.

(** A function that, on [0], calls itself on [-1], handles the failure of
    that call ([try: f(-1) except ValueError: pass]) and returns [7]. *)
Definition guarded (a : list Z) (kw : list (string * Z)) : body Z string :=
  match a with
  | [n] =>
      if decide (n < 0)%Z then Raise (Failure "ValueError")
      else Call [(-1)%Z] [] (λ _, Return 7%Z)
  | _ => Raise (Failure "TypeError")
  end.

(** A store in which record 2 was attached to record 0. *)
Definition attached_store : list (RecursiveCall Z) :=
  [ {| caller := None; callees := [2]; args := [0%Z]; kwargs := [];
       result := UNINITIALIZED |};
    {| caller := None; callees := []; args := [1%Z]; kwargs := [];
       result := UNINITIALIZED |};
    {| caller := Some 0; callees := []; args := [2%Z]; kwargs := [];
       result := UNINITIALIZED |} ].

(** The store that the tracked [fib(3)] leaves, and its tree. *)
Definition fib3_store : list (RecursiveCall Z) :=
  [ {| caller := None; callees := [1; 4]; args := [3%Z]; kwargs := [];
       result := Value 2%Z |};
    {| caller := Some 0; callees := [2; 3]; args := [2%Z]; kwargs := [];
       result := Value 1%Z |};
    {| caller := Some 1; callees := []; args := [1%Z]; kwargs := [];
       result := Value 1%Z |};
    {| caller := Some 1; callees := []; args := [0%Z]; kwargs := [];
       result := Value 0%Z |};
    {| caller := Some 0; callees := []; args := [1%Z]; kwargs := [];
       result := Value 1%Z |} ].

Definition fib2_tree : call_tree Z :=
  Node 1 [2%Z] [] (Value 1%Z)
    [ Node 2 [1%Z] [] (Value 1%Z) []; Node 3 [0%Z] [] (Value 0%Z) [] ].

Definition fib1_tree : call_tree Z := Node 4 [1%Z] [] (Value 1%Z) [].

Definition fib3_tree : call_tree Z :=
  Node 0 [3%Z] [] (Value 2%Z) [fib2_tree; fib1_tree].

(** The call [fib(3)] around its first callee. *)
Definition fib3_frame : frame Z :=
  {| frame_ref := 0; frame_args := [3%Z]; frame_kwargs := [];
     frame_result := Value 2%Z; elder := []; younger := [fib1_tree] |}.

(** The tracker after [checked(-1)] has failed on thread 1: the record of
    the failed call is a root, and is still on the stack. *)
Definition after_failure : State Z :=
  {| heap := [ {| caller := None; callees := []; args := [(-1)%Z];
                  kwargs := []; result := UNINITIALIZED |} ];
     _call_stacks := {[ 1%Z := [0] ]};
     start_calls := [0] |}.

(** A store in which record 1 is the callee of record 0 and nothing refers
    to record 2. *)
Definition spare_store : list (RecursiveCall Z) :=
  [ {| caller := None; callees := [1]; args := [0%Z]; kwargs := [];
       result := UNINITIALIZED |};
    {| caller := Some 0; callees := []; args := [1%Z]; kwargs := [];
       result := UNINITIALIZED |};
    {| caller := None; callees := []; args := [2%Z]; kwargs := [];
       result := UNINITIALIZED |} ].

(** * What the store keeps *)

Section Store_invariants.

Context {value : Type}.

(** [caller] and [callees] agree: a record that has a caller is among the
    callees of that caller, a callee of a record has that record as its
    caller, and no record is twice among the callees of a record. *)
Definition linked (h : list (RecursiveCall value)) : Prop :=
  (∀ c rc p, h !! c = Some rc → caller rc = Some p →
     ∃ rp, h !! p = Some rp ∧ c ∈ callees rp)
  ∧ (∀ p rp c, h !! p = Some rp → c ∈ callees rp →
       ∃ rc, h !! c = Some rc ∧ caller rc = Some p)
  ∧ (∀ p rp, h !! p = Some rp → NoDup (callees rp)).

(** A record that nothing refers to yet. *)
Definition detached (h : list (RecursiveCall value)) (c : ref) : Prop :=
  (∃ rc, h !! c = Some rc ∧ caller rc = None ∧ callees rc = [])
  ∧ (∀ p rp, h !! p = Some rp → c ∉ callees rp).

(** The records of [h] are in [h'], with the arguments and the caller they
    had and at least the callees they had, in the same order. *)
Definition kept (h h' : list (RecursiveCall value)) : Prop :=
  ∀ c r, h !! c = Some r →
    ∃ r', h' !! c = Some r' ∧ args r' = args r ∧ kwargs r' = kwargs r
          ∧ caller r' = caller r ∧ callees r `prefix_of` callees r'.


(** The records on the stack of the thread are in the store. *)
Definition stack_in_store (tid : Z) (st : State value) : Prop :=
  ∀ c, c ∈ call_stack_of tid st → c < length (heap st).


End Store_invariants.

(** * Lists *)

Lemma elem_of_concat_map {A B} (f : A → list B) (l : list A) (x : B) :
  x ∈ concat (map f l) ↔ ∃ y, y ∈ l ∧ x ∈ f y.
Proof.
  induction l as [|a l IH]; simpl.
  - split; [by intros ?%elem_of_nil | by intros (? & ?%elem_of_nil & _)].
  - rewrite elem_of_app, IH. split.
    + intros [?|(y & ? & ?)]; [exists a | exists y]; rewrite elem_of_cons; eauto.
    + intros (y & [->|?]%elem_of_cons & ?); eauto.
Qed.

Lemma elem_of_map_iff {A B} (f : A → B) (l : list A) (y : B) :
  y ∈ map f l ↔ ∃ x, y = f x ∧ x ∈ l.
Proof.
  rewrite list_elem_of_In, in_map_iff. split; intros (x & ? & ?); exists x.
  - by rewrite list_elem_of_In.
  - by rewrite <- list_elem_of_In.
Qed.

(** * Properties of the tracker *)

Section Tracker_properties.

Context {value exn : Type}.

Implicit Types (st : State value) (t : invocation value exn).

(** ** The stack of a thread along an execution *)

Lemma invocation_forall_ind (P : invocation value exn → Prop) :
  (∀ a kw subs o, Forall P subs → P (Invocation a kw subs o)) →
  ∀ t, P t.
Proof.
  intros step. fix IH 1. intros [a kw subs o]. apply step.
  induction subs as [|t subs IHsubs]; constructor; [apply IH | exact IHsubs].
Qed.

Lemma call_stack_of_enter tid a kw st :
  call_stack_of tid (enter tid a kw st)
  = call_stack_of tid st ++ [length (heap st)].
Proof.
  unfold enter. destruct (last (call_stack_of tid st));
    unfold call_stack_of at 1; simpl; by rewrite lookup_insert_eq.
Qed.

Lemma call_stack_of_enter_ne tid tid' a kw st :
  tid ≠ tid' →
  call_stack_of tid' (enter tid a kw st) = call_stack_of tid' st.
Proof.
  intros Hne. unfold enter. destruct (last (call_stack_of tid st));
    unfold call_stack_of at 1; simpl; by rewrite lookup_insert_ne.
Qed.

Lemma leave_Some tid r st top :
  last (call_stack_of tid st) = Some top →
  leave tid r st
  = Some {| heap := alter (set_result (Value r)) top (heap st);
            _call_stacks :=
              <[tid := removelast (call_stack_of tid st)]> (_call_stacks st);
            start_calls := start_calls st |}.
Proof. intros Hlast. unfold leave. by rewrite Hlast. Qed.

Lemma call_stack_of_leave tid r st st' :
  leave tid r st = Some st' →
  call_stack_of tid st' = removelast (call_stack_of tid st).
Proof.
  unfold leave. destruct (last (call_stack_of tid st)); [|done].
  intros [= <-]. unfold call_stack_of at 1; simpl. by rewrite lookup_insert_eq.
Qed.

Lemma removelast_snoc {A} (l : list A) x : removelast (l ++ [x]) = l.
Proof. apply removelast_last. Qed.

Lemma last_is_Some {A} (l : list A) : l ≠ [] → is_Some (last l).
Proof.
  destruct l as [|x l] using rev_ind; [done|]. rewrite last_snoc. eauto.
Qed.

(** The part of a stack that was there when a call began is still there, in
    the same place, whenever the call is over. *)
Lemma foldl_track_stack_prefix tid subs :
  Forall (λ t, ∀ st, call_stack_of tid st
                       `prefix_of` call_stack_of tid (track tid t st)) subs →
  ∀ st, call_stack_of tid st
          `prefix_of` call_stack_of tid (foldl (λ s t', track tid t' s) st subs).
Proof.
  induction 1 as [|t subs Ht _ IH]; intros st; simpl; [done|].
  etrans; [apply Ht | apply IH].
Qed.

Lemma track_stack_prefix tid t :
  ∀ st, call_stack_of tid st `prefix_of` call_stack_of tid (track tid t st).
Proof.
  induction t as [a kw subs o IH] using invocation_forall_ind. intros st.
  simpl. set (st2 := foldl _ _ subs).
  assert (call_stack_of tid st ++ [length (heap st)]
            `prefix_of` call_stack_of tid st2) as [ext Hext].
  { rewrite <- (call_stack_of_enter tid a kw).
    by apply foldl_track_stack_prefix. }
  assert (call_stack_of tid st `prefix_of` call_stack_of tid st2) as Hpre.
  { rewrite Hext, <- app_assoc. by apply prefix_app_r. }
  destruct o as [r|e]; [|done].
  destruct (leave tid r st2) as [st3|] eqn:Hleave; simpl; [|done].
  rewrite (call_stack_of_leave _ _ _ _ Hleave), Hext.
  destruct ext as [|x ext _] using rev_ind.
  - by rewrite app_nil_r, removelast_snoc.
  - rewrite app_assoc, removelast_snoc, <- app_assoc. by apply prefix_app_r.
Qed.

(** So the pop of line 138 always finds a record to pop. *)
Lemma leave_after_body tid a kw subs r st :
  is_Some (leave tid r (foldl (λ s t', track tid t' s) (enter tid a kw st) subs)).
Proof.
  set (st2 := foldl _ _ subs).
  assert (call_stack_of tid st ++ [length (heap st)]
            `prefix_of` call_stack_of tid st2) as [ext Hext].
  { rewrite <- (call_stack_of_enter tid a kw). apply foldl_track_stack_prefix.
    apply Forall_forall. intros t _. apply track_stack_prefix. }
  destruct (last_is_Some (call_stack_of tid st2)) as [top Htop].
  { rewrite Hext. by destruct (call_stack_of tid st). }
  rewrite (leave_Some _ _ _ _ Htop). eauto.
Qed.

(** ** The wrapper follows the execution of the function *)

Lemma run_body_trace fuel func tid :
  (∀ a kw t, execute fuel func a kw = Some t →
     ∀ st, wrapper fuel func tid a kw st = Some (outcome_of t, track tid t st)) →
  ∀ b subs o, trace_body (execute fuel func) b = Some (subs, o) →
  ∀ st, run_body (wrapper fuel func tid) b st
        = Some (o, foldl (λ s t', track tid t' s) st subs).
Proof.
  intros Hrec. induction b as [v|e|a kw k IH]; intros subs o; simpl.
  - by intros [= <- <-] st.
  - by intros [= <- <-] st.
  - destruct (execute fuel func a kw) as [t|] eqn:Ht; [|done].
    destruct (trace_body _ (k (outcome_of t))) as [[ts o']|] eqn:Hk; [|done].
    intros [= <- <-] st. rewrite (Hrec _ _ _ Ht). simpl. by apply IH.
Qed.

Lemma wrapper_track fuel func tid :
  ∀ a kw t, execute fuel func a kw = Some t →
  ∀ st, wrapper fuel func tid a kw st = Some (outcome_of t, track tid t st).
Proof.
  induction fuel as [|fuel IH]; intros a kw t; simpl; [done|].
  destruct (trace_body _ (func a kw)) as [[subs o]|] eqn:Hb; [|done].
  intros [= <-] st. rewrite (run_body_trace _ _ _ IH _ _ _ Hb). simpl.
  destruct o as [r|e]; [|done].
  by destruct (leave_after_body tid a kw subs r st) as [st3 ->].
Qed.

(** ** The store after an execution in which every call returned *)

Lemma size_unfold a kw subs o :
  size (Invocation a kw subs o : invocation value exn) = S (sizes subs).
Proof. reflexivity. Qed.

Lemma sizes_cons t (ts : list (invocation value exn)) :
  sizes (t :: ts) = size t + sizes ts.
Proof. reflexivity. Qed.

Lemma records_unfold n p a kw subs (o : outcome value exn) :
  records n p (Invocation a kw subs o)
  = {| caller := p; callees := child_refs (S n) subs; args := a;
       kwargs := kw; result := result_of o |}
    :: records_all (S n) (Some n) subs.
Proof.
  simpl. f_equal. generalize (S n) as m.
  induction subs as [|t subs IH]; intros m; simpl; [done|]. by rewrite IH.
Qed.

Lemma label_unfold n a kw subs (o : outcome value exn) :
  label n (Invocation a kw subs o)
  = Node n a kw (result_of o) (label_all (S n) subs).
Proof. reflexivity. Qed.

Lemma length_records_all n p (ts : list (invocation value exn)) :
  Forall (λ t, ∀ n p, length (records n p t) = size t) ts →
  length (records_all n p ts) = sizes ts.
Proof.
  intros Hts. revert n. induction Hts as [|t ts Ht _ IH]; intros n; [done|].
  simpl records_all. by rewrite length_app, Ht, IH.
Qed.

Lemma length_records t : ∀ n p, length (records n p t) = size t.
Proof.
  induction t as [a kw subs o IH] using invocation_forall_ind. intros n p.
  rewrite records_unfold, size_unfold. simpl. f_equal.
  by apply length_records_all.
Qed.

Lemma length_records_all' n p (ts : list (invocation value exn)) :
  length (records_all n p ts) = sizes ts.
Proof.
  apply length_records_all, Forall_forall. intros t _. apply length_records.
Qed.

Lemma State_eq (h h' : list (RecursiveCall value)) m m' s s' :
  h = h' → m = m' → s = s' → mkState h m s = mkState h' m' s'.
Proof. by intros -> -> ->. Qed.

Lemma enter_explicit tid a kw st :
  top_in_store tid st →
  enter tid a kw st
  = {| heap := attach (last (call_stack_of tid st)) (length (heap st)) (heap st)
               ++ [{| caller := last (call_stack_of tid st); callees := [];
                      args := a; kwargs := kw; result := UNINITIALIZED |}];
       _call_stacks := <[tid := call_stack_of tid st ++ [length (heap st)]]>
                         (_call_stacks st);
       start_calls := start_calls st
                      ++ match last (call_stack_of tid st) with
                         | Some _ => []
                         | None => [length (heap st)]
                         end |}.
Proof.
  intros Htop. unfold enter.
  destruct (last (call_stack_of tid st)) as [top|] eqn:Hlast; [|done].
  apply State_eq; [|done|by rewrite app_nil_r].
  unfold add_callee, attach. rewrite alter_app_l by by apply Htop.
  rewrite <- (Nat.add_0_r (length (heap st))) at 1.
  rewrite <- (length_alter (append_callee (length (heap st))) (heap st) top) at 1.
  by rewrite alter_app_r.
Qed.

Lemma length_heap_enter tid a kw st :
  length (heap (enter tid a kw st)) = S (length (heap st)).
Proof.
  unfold enter, add_callee. destruct (last (call_stack_of tid st)); simpl;
    rewrite ?length_alter, length_app; simpl; lia.
Qed.

Lemma extend_callees_app cs cs' (r : RecursiveCall value) :
  extend_callees cs' (extend_callees cs r) = extend_callees (cs ++ cs') r.
Proof. unfold extend_callees; simpl. by rewrite <- app_assoc. Qed.

Lemma extend_callees_nil (r : RecursiveCall value) : extend_callees [] r = r.
Proof. destruct r. unfold extend_callees; simpl. by rewrite app_nil_r. Qed.

(** The callees of a call that is on top of the stack: each gets its own
    records after those of its elder siblings, and its reference at the end
    of the callees of the call. *)
Lemma foldl_track_normal tid n s (subs : list (invocation value exn)) :
  Forall (λ t, ∀ st, top_in_store tid st →
            track tid t st = after_normal tid t st) subs →
  ∀ st, call_stack_of tid st = s ++ [n] → n < length (heap st) →
  foldl (λ s t', track tid t' s) st subs
  = {| heap := alter (extend_callees (child_refs (length (heap st)) subs)) n
                 (heap st)
               ++ records_all (length (heap st)) (Some n) subs;
       _call_stacks := <[tid := s ++ [n]]> (_call_stacks st);
       start_calls := start_calls st |}.
Proof.
  induction 1 as [|t subs Ht _ IH]; intros st Hs Hn; simpl.
  - rewrite app_nil_r, (list_alter_id _ _ _ extend_callees_nil).
    destruct st as [h m r]; simpl. apply State_eq; [done| |done].
    symmetry. apply insert_id. unfold call_stack_of in Hs; simpl in Hs.
    destruct (m !! tid) as [l|] eqn:Hm; simpl in Hs; [by subst|].
    by destruct s.
  - rewrite Ht by (intros top; rewrite Hs, last_snoc; by intros [= <-]).
    unfold after_normal. rewrite Hs, last_snoc. simpl attach. rewrite app_nil_r.
    rewrite IH; simpl.
    + rewrite length_app, length_alter, length_records.
      apply State_eq; [|by rewrite insert_insert_eq|done].
      rewrite alter_app_l by by rewrite length_alter.
      rewrite list_alter_alter_eq, <- app_assoc. f_equal.
      apply list_alter_ext; [|done]. intros r _. simpl.
      apply (extend_callees_app [length (heap st)]).
    + unfold call_stack_of; simpl. by rewrite lookup_insert_eq.
    + rewrite length_app, length_alter. lia.
Qed.

Lemma track_normal tid t :
  normal t →
  ∀ st, top_in_store tid st →
  track tid t st = after_normal tid t st.
Proof.
  induction t as [a kw subs o IH] using invocation_forall_ind.
  intros [[r ->] Hsubs] st Htop.
  assert (Forall normal subs) as Hall.
  { clear IH. induction subs as [|t subs IHs]; constructor; [apply Hsubs|].
    apply IHs, Hsubs. }
  assert (Forall (λ t, ∀ st, top_in_store tid st →
            track tid t st = after_normal tid t st) subs) as IH'.
  { apply Forall_forall. intros t Ht.
    rewrite Forall_forall in IH, Hall. by apply IH, Hall. }
  clear IH Hsubs. unfold after_normal. cbn [track].
  set (s := call_stack_of tid st). set (n := length (heap st)).
  rewrite (foldl_track_normal tid n s subs IH');
    [|by rewrite call_stack_of_enter
     |rewrite length_heap_enter; lia].
  rewrite enter_explicit by done. fold s n. cbn [heap _call_stacks start_calls].
  assert (length (attach (last s) n (heap st)) = n) as Hlen.
  { destruct (last s); simpl; by rewrite ?length_alter. }
  rewrite length_app, Hlen. simpl length. rewrite Nat.add_1_r.
  match goal with |- context [leave tid r ?st2] =>
    assert (call_stack_of tid st2 = s ++ [n]) as Hstack
      by (unfold call_stack_of; simpl; by rewrite lookup_insert_eq);
    rewrite (leave_Some tid r st2 n) by (by rewrite Hstack, last_snoc);
    rewrite Hstack
  end.
  cbn [default heap _call_stacks start_calls].
  rewrite removelast_snoc, !insert_insert_eq.
  apply State_eq; [|done..].
  rewrite records_unfold.
  rewrite alter_app_l by (rewrite length_alter, length_app; simpl; lia).
  rewrite list_alter_alter_eq, alter_app_r_alt by (rewrite Hlen; lia).
  rewrite Hlen, Nat.sub_diag. simpl. by rewrite <- app_assoc.
Qed.

(** ** Trees in the store *)

Lemma call_tree_forall_ind (P : call_tree value → Prop) :
  (∀ c a kw res children, Forall P children → P (Node c a kw res children)) →
  ∀ t : call_tree value, P t.
Proof.
  intros step. fix IH 1. intros [c a kw res children]. apply step.
  induction children as [|t ts IHts]; constructor; [apply IH | exact IHts].
Qed.

Lemma embeds_inv (h : list (RecursiveCall value)) p c a kw res children :
  embeds h p (Node c a kw res children) →
  h !! c = Some {| caller := p; callees := map root children; args := a;
                   kwargs := kw; result := res |}
  ∧ Forall (embeds h (Some c)) children.
Proof. by inversion 1. Qed.

Lemma embeds_root_depth (h : list (RecursiveCall value)) p d
    (t : call_tree value) :
  embeds h p t → parent_depth h p d → has_depth h (root t) d.
Proof.
  destruct t as [c a kw res children]. intros [Hc _]%embeds_inv Hp. simpl.
  destruct p as [q|]; simpl in Hp.
  - destruct Hp as (d' & -> & Hq). by eapply has_depth_callee.
  - subst d. by eapply has_depth_root.
Qed.

Lemma embeds_has_depth (h : list (RecursiveCall value)) (t : call_tree value) :
  ∀ p d, embeds h p t → parent_depth h p d →
  ∀ c dc, (c, dc) ∈ depths d t → has_depth h c dc.
Proof.
  induction t as [c0 a kw res children IH] using call_tree_forall_ind.
  intros p d Ht Hp c dc. pose proof (embeds_root_depth _ _ _ _ Ht Hp) as Hroot.
  apply embeds_inv in Ht as [_ Hch]. simpl.
  intros [[= -> ->]|Hin]%elem_of_cons; [done|].
  apply elem_of_concat_map in Hin as (t' & Ht' & Hc).
  rewrite Forall_forall in IH, Hch.
  eapply (IH t' Ht' (Some c0) (S d)); [by apply Hch| |done].
  simpl. eauto.
Qed.

(** Within an embedded tree every record other than the root is among the
    callees of its caller ... *)
Lemma embeds_caller (h : list (RecursiveCall value)) (t : call_tree value) :
  ∀ p0, embeds h p0 t →
  ∀ c rc, c ∈ refs t → h !! c = Some rc →
  (c = root t ∧ caller rc = p0)
  ∨ (∃ p rp, caller rc = Some p ∧ h !! p = Some rp ∧ c ∈ callees rp).
Proof.
  induction t as [c0 a kw res children IH] using call_tree_forall_ind.
  intros p0 [Hc0 Hch]%embeds_inv c rc. simpl.
  intros [->|Hin]%elem_of_cons Hc.
  - left. split; [done|]. rewrite Hc0 in Hc. by injection Hc as <-.
  - right. apply elem_of_concat_map in Hin as (t' & Ht' & Hin).
    rewrite Forall_forall in IH, Hch.
    destruct (IH t' Ht' (Some c0) (Hch t' Ht') c rc Hin Hc)
      as [[-> Hcaller]|Hdeep]; [|done].
    eexists c0, _. split_and!; [done..|]. simpl.
    apply elem_of_map_iff. eauto.
Qed.

(** ... and every callee of a record has that record as its caller. *)
Lemma embeds_callee (h : list (RecursiveCall value)) (t : call_tree value) :
  ∀ p0, embeds h p0 t →
  ∀ p rp c, p ∈ refs t → h !! p = Some rp → c ∈ callees rp →
  ∃ rc, h !! c = Some rc ∧ caller rc = Some p.
Proof.
  induction t as [c0 a kw res children IH] using call_tree_forall_ind.
  intros p0 [Hc0 Hch]%embeds_inv p rp c. simpl.
  rewrite Forall_forall in IH, Hch.
  intros [->|Hin]%elem_of_cons Hp Hc.
  - rewrite Hc0 in Hp. injection Hp as <-. simpl in Hc.
    apply elem_of_map_iff in Hc as (t' & -> & Ht').
    specialize (Hch t' Ht'). destruct t' as [c' a' kw' res' ch'].
    apply embeds_inv in Hch as [Hc' _]. eauto.
  - apply elem_of_concat_map in Hin as (t' & Ht' & Hin). by eapply IH; eauto.
Qed.

(** ** The trees of an execution *)

Lemma root_label n t : root (label n t) = n.
Proof. by destruct t. Qed.

Lemma map_root_label_all (ts : list (invocation value exn)) :
  ∀ n, map root (label_all n ts) = child_refs n ts.
Proof.
  induction ts as [|t ts IH]; intros n; simpl; [done|].
  by rewrite root_label, IH.
Qed.

Lemma refs_label_all (ts : list (invocation value exn)) :
  Forall (λ t, ∀ n, refs (label n t) = seq n (size t)) ts →
  ∀ n, concat (map refs (label_all n ts)) = seq n (sizes ts).
Proof.
  induction 1 as [|t ts Ht _ IH]; intros n; [done|].
  simpl label_all. rewrite sizes_cons, seq_app. simpl. by rewrite Ht, IH.
Qed.

Lemma refs_label t : ∀ n, refs (label n t) = seq n (size t).
Proof.
  induction t as [a kw subs o IH] using invocation_forall_ind. intros n.
  rewrite label_unfold, size_unfold. simpl. f_equal.
  by apply refs_label_all.
Qed.

Lemma refs_label_all' (ts : list (invocation value exn)) n :
  concat (map refs (label_all n ts)) = seq n (sizes ts).
Proof.
  apply refs_label_all, Forall_forall. intros t _. apply refs_label.
Qed.

Lemma nesting_unfold n d a kw subs (o : outcome value exn) :
  nesting n d (Invocation a kw subs o)
  = (n, d) :: nesting_all (S n) (S d) subs.
Proof.
  simpl. f_equal. generalize (S n) as m.
  induction subs as [|t subs IH]; intros m; simpl; [done|]. by rewrite IH.
Qed.

Lemma depths_label_all (ts : list (invocation value exn)) d :
  Forall (λ t, ∀ n d, depths d (label n t) = nesting n d t) ts →
  ∀ n, concat (map (depths d) (label_all n ts)) = nesting_all n d ts.
Proof.
  induction 1 as [|t ts Ht _ IH]; intros n; [done|].
  simpl. by rewrite Ht, IH.
Qed.

Lemma depths_label t : ∀ n d, depths d (label n t) = nesting n d t.
Proof.
  induction t as [a kw subs o IH] using invocation_forall_ind. intros n d.
  rewrite label_unfold, nesting_unfold. simpl. f_equal.
  by apply depths_label_all.
Qed.

Lemma depths_label_all' (ts : list (invocation value exn)) n d :
  concat (map (depths d) (label_all n ts)) = nesting_all n d ts.
Proof.
  apply depths_label_all, Forall_forall. intros t _. apply depths_label.
Qed.

(** The records of an execution hold its tree, wherever they are put. *)
Lemma embeds_records_all (ts : list (invocation value exn)) :
  Forall (λ t, ∀ n p H H', length H = n →
            embeds (H ++ records n p t ++ H') p (label n t)) ts →
  ∀ n p H H', length H = n →
  Forall (embeds (H ++ records_all n p ts ++ H') p) (label_all n ts).
Proof.
  induction 1 as [|t ts Ht _ IH]; intros n p H H' Hlen; simpl; [done|].
  constructor.
  - rewrite <- app_assoc. by apply Ht.
  - rewrite <- app_assoc, (app_assoc H). apply IH.
    by rewrite length_app, length_records, Hlen.
Qed.

Lemma embeds_records t :
  ∀ n p H H', length H = n → embeds (H ++ records n p t ++ H') p (label n t).
Proof.
  induction t as [a kw subs o IH] using invocation_forall_ind.
  intros n p H H' Hlen. rewrite label_unfold, records_unfold. constructor.
  - rewrite map_root_label_all. simpl. by apply list_lookup_middle.
  - pose proof (embeds_records_all subs IH (S n) (Some n)
                  (H ++ [{| caller := p; callees := child_refs (S n) subs;
                            args := a; kwargs := kw; result := result_of o |}])
                  H') as Hsubs.
    rewrite <- app_assoc in Hsubs. apply Hsubs.
    rewrite length_app, Hlen. simpl. lia.
Qed.

Lemma embeds_records_all' (ts : list (invocation value exn)) n p H H' :
  length H = n →
  Forall (embeds (H ++ records_all n p ts ++ H') p) (label_all n ts).
Proof.
  apply embeds_records_all, Forall_forall. intros t _. apply embeds_records.
Qed.

(** ** Calls made one after the other from outside *)

Lemma wrapper_seq_track fuel func tid calls (ts : list (invocation value exn)) :
  Forall2 (λ c t, execute fuel func c.1 c.2 = Some t) calls ts →
  ∀ st, wrapper_seq fuel func tid calls st
        = Some (map outcome_of ts, track_all tid ts st).
Proof.
  induction 1 as [|[a kw] t calls ts Ht _ IH]; intros st; simpl; [done|].
  simpl in Ht. by rewrite (wrapper_track _ _ _ _ _ _ Ht), IH.
Qed.

Lemma track_all_normal tid (ts : list (invocation value exn)) :
  Forall normal ts →
  ∀ st, call_stack_of tid st = [] →
  heap (track_all tid ts st)
  = heap st ++ records_all (length (heap st)) None ts
  ∧ start_calls (track_all tid ts st)
    = start_calls st ++ child_refs (length (heap st)) ts
  ∧ call_stack_of tid (track_all tid ts st) = [].
Proof.
  induction 1 as [|t ts Ht _ IH]; intros st Hs; simpl.
  { by rewrite !app_nil_r. }
  unfold track_all in *. simpl.
  rewrite track_normal by (done || (intros top; by rewrite Hs)).
  unfold after_normal. rewrite Hs. simpl attach. simpl last.
  match goal with |- context [foldl _ ?st1 ts] =>
    destruct (IH st1) as (Hh & Hr & Hstack)
  end.
  { unfold call_stack_of; simpl. by rewrite lookup_insert_eq. }
  simpl in Hh, Hr. rewrite length_app, length_records in Hh, Hr.
  rewrite Hh, Hr, <- !app_assoc. done.
Qed.

(** ** Other threads *)

Lemma call_stack_of_leave_ne tid tid' r st st' :
  tid ≠ tid' → leave tid r st = Some st' →
  call_stack_of tid' st' = call_stack_of tid' st.
Proof.
  intros Hne. unfold leave. destruct (last (call_stack_of tid st)); [|done].
  intros [= <-]. unfold call_stack_of at 1; simpl. by rewrite lookup_insert_ne.
Qed.

(** Calls on a thread leave the stacks of the other threads as they were. *)
Lemma track_other_thread tid tid' t :
  tid ≠ tid' →
  ∀ st, call_stack_of tid' (track tid t st) = call_stack_of tid' st.
Proof.
  intros Hne. induction t as [a kw subs o IH] using invocation_forall_ind.
  intros st. simpl. set (st1 := enter tid a kw st).
  assert (call_stack_of tid' (foldl (λ s t', track tid t' s) st1 subs)
          = call_stack_of tid' st) as Hsubs.
  { rewrite <- (call_stack_of_enter_ne tid tid' a kw st Hne). fold st1.
    generalize st1. induction IH as [|t subs Ht _ IHsubs]; intros st2; [done|].
    simpl. by rewrite IHsubs, Ht. }
  destruct o as [r|e]; [|done].
  destruct (leave tid r _) as [st3|] eqn:Hleave; simpl; [|done].
  by rewrite (call_stack_of_leave_ne _ _ _ _ _ Hne Hleave).
Qed.

(** ** The claims on the wrapper *)

(** C2. When the function, called on [a] and [kw], returns [r], the
    instrumented function called on the same arguments returns [r], whatever
    the state of the tracker and the thread. *)
Theorem wrapper_returns_result fuel func tid a kw t r st :
  execute fuel func a kw = Some t →
  outcome_of t = Returned r →
  ∃ st', wrapper fuel func tid a kw st = Some (Returned r, st').
Proof.
  intros Ht Hr. exists (track tid t st).
  by rewrite (wrapper_track _ _ _ _ _ _ Ht), Hr.
Qed.

(** C1, what the code does. When the function fails with [e], the
    instrumented function fails with the same [e]; but the record of the
    failed call is not popped: the stack of the thread still holds all it
    held before the call, then the record of the failed call. *)
Theorem wrapper_failure_not_popped fuel func tid a kw t e st :
  execute fuel func a kw = Some t →
  outcome_of t = Raised e →
  ∃ st', wrapper fuel func tid a kw st = Some (Raised e, st')
         ∧ call_stack_of tid st ++ [length (heap st)]
             `prefix_of` call_stack_of tid st'.
Proof.
  intros Ht He. exists (track tid t st).
  rewrite (wrapper_track _ _ _ _ _ _ Ht), He. split; [done|].
  destruct t as [a' kw' subs o]. simpl in He. subst o. simpl.
  rewrite <- (call_stack_of_enter tid a' kw').
  apply foldl_track_stack_prefix, Forall_forall.
  intros t _. apply track_stack_prefix.
Qed.

(** C3. Calls made one after the other on a thread, every invocation among
    them and below them returning: the store has one record for each
    invocation, numbered in the order in which the invocations began; the
    records form the trees of the invocations, the callees of a record being
    the invocations made while it was on top of the stack, in order, and its
    caller the record that was on top when it began; the calls made from
    outside are the roots, in [start_calls]; caller and callees agree
    throughout; and a record is as many [caller] links away from its root
    as there were calls active when its invocation began. *)
Theorem tracked_calls_build_call_forest fuel func tid calls
    (ts : list (invocation value exn)) :
  Forall2 (λ c t, execute fuel func c.1 c.2 = Some t) calls ts →
  Forall normal ts →
  ∃ st,
    wrapper_seq fuel func tid calls CallTracker_init
    = Some (map outcome_of ts, st)
    ∧ length (heap st) = sizes ts
    ∧ concat (map refs (label_all 0 ts)) = seq 0 (sizes ts)
    ∧ start_calls st = map root (label_all 0 ts)
    ∧ call_stack_of tid st = []
    ∧ Forall (embeds (heap st) None) (label_all 0 ts)
    ∧ (∀ c rc p, heap st !! c = Some rc → caller rc = Some p →
         ∃ rp, heap st !! p = Some rp ∧ c ∈ callees rp)
    ∧ (∀ p rp c, heap st !! p = Some rp → c ∈ callees rp →
         ∃ rc, heap st !! c = Some rc ∧ caller rc = Some p)
    ∧ (∀ c d, (c, d) ∈ nesting_all 0 0 ts → has_depth (heap st) c d).
Proof.
  intros Hexec Hnormal. exists (track_all tid ts CallTracker_init).
  destruct (track_all_normal tid ts Hnormal CallTracker_init)
    as (Hheap & Hroots & Hstack); [done|].
  simpl in Hheap, Hroots.
  assert (Forall (embeds (heap (track_all tid ts CallTracker_init)) None)
            (label_all 0 ts)) as Hemb.
  { rewrite Hheap. rewrite <- (app_nil_r (records_all 0 None ts)).
    by apply (embeds_records_all' ts 0 None []). }
  assert (∀ c rc, heap (track_all tid ts CallTracker_init) !! c = Some rc →
            ∃ ct, ct ∈ label_all 0 ts ∧ c ∈ refs ct) as Hcover.
  { intros c rc Hc. apply lookup_lt_Some in Hc.
    rewrite Hheap, length_records_all' in Hc.
    apply elem_of_concat_map. rewrite refs_label_all'.
    apply elem_of_seq. lia. }
  rewrite Forall_forall in Hemb.
  split_and!.
  - by apply wrapper_seq_track.
  - by rewrite Hheap, length_records_all'.
  - apply refs_label_all'.
  - by rewrite Hroots, map_root_label_all.
  - done.
  - by apply Forall_forall.
  - intros c rc p Hc Hp. destruct (Hcover c rc Hc) as (ct & Hct & Hin).
    destruct (embeds_caller _ ct None (Hemb ct Hct) c rc Hin Hc)
      as [[_ Hnone]|(p' & rp & Hp' & Hrp & Hcin)]; [congruence|].
    exists rp. by replace p with p' by congruence.
  - intros p rp c Hp Hc. destruct (Hcover p rp Hp) as (ct & Hct & Hin).
    by apply (embeds_callee _ ct None (Hemb ct Hct) p rp c).
  - intros c d Hcd. rewrite <- depths_label_all' in Hcd.
    apply elem_of_concat_map in Hcd as (ct & Hct & Hcd).
    by apply (embeds_has_depth _ ct None 0 (Hemb ct Hct)).
Qed.

(** C8, as the code has it. [add_callee] checks nothing: whatever the two
    records, attached already or not, it completes, the callee is appended to
    the callees of the record, the record is made the caller of the callee,
    and no other record changes. Of the bookkeeping of the wrapper only the
    pop of an empty stack fails. *)
Theorem add_callee_never_refuses (h : list (RecursiveCall value))
    self callee rs rc :
  h !! self = Some rs →
  h !! callee = Some rc →
  length (add_callee self callee h) = length h
  ∧ callees <$> add_callee self callee h !! self
    = Some (callees rs ++ [callee])
  ∧ caller <$> add_callee self callee h !! callee = Some (Some self)
  ∧ (∀ i, i ≠ self → i ≠ callee → add_callee self callee h !! i = h !! i)
  ∧ (∀ tid r st,
       leave (value := value) tid r st = None ↔ call_stack_of tid st = []).
Proof.
  intros Hs Hc. unfold add_callee. split_and!.
  - by rewrite !length_alter.
  - rewrite list_lookup_alter. case_decide as Heq.
    + rewrite Heq, list_lookup_alter_eq, Hs. done.
    + rewrite list_lookup_alter_eq, Hs. done.
  - rewrite list_lookup_alter_eq, list_lookup_alter.
    case_decide as Heq; [rewrite Hs|rewrite Hc]; done.
  - intros i His Hic. by rewrite !list_lookup_alter_ne.
  - intros tid r st. unfold leave.
    destruct (last (call_stack_of tid st)) eqn:Hlast.
    + split; [done|]. intros Hnil. by rewrite Hnil in Hlast.
    + split; [|done]. intros _. by apply last_None.
Qed.

End Tracker_properties.

(** * Properties of the printer *)

Section Printer_properties.

Context {value : Type} `{!Repr value}.
Variable h : list (RecursiveCall value).
Variable w : Z.


(** ** Indentation *)

Lemma indent_plain d i : _indent_from_depth d i false = str_mul " " (i * d * 2).
Proof.
  unfold _indent_from_depth. case_decide; [|done]. subst d. f_equal. lia.
Qed.

Lemma indent_hanging d i :
  _indent_from_depth d i true = str_mul " " (i * d * 2 + i).
Proof.
  unfold _indent_from_depth. case_decide; [|done]. subst d. f_equal. lia.
Qed.

Lemma length_str_repeat n : String.length (str_repeat " " n) = n.
Proof. induction n as [|n IH]; simpl; [done|by f_equal]. Qed.

Lemma node_lines_markers d (r : RecursiveCall value) :
  node_lines d w r
  = head_lines w d (args r) (kwargs r) (result r)
    ++ [match callees r with
        | [] => empty_marker w d
        | _ :: _ => opening_marker w d
        end].
Proof.
  unfold node_lines, head_lines, empty_marker,
    opening_marker.
  rewrite indent_plain, indent_hanging. by destruct (callees r).
Qed.

Lemma closing_lines_marker d (r : RecursiveCall value) :
  closing_lines d w r
  = match callees r with [] => [] | _ :: _ => [closing_marker w d] end.
Proof. unfold closing_lines, closing_marker. by rewrite indent_hanging. Qed.

(** ** Turns of the loop *)

Lemma pp_turns_add n m s :
  pp_turns (n + m) h w s = pp_turns n h w s ≫= pp_turns m h w.
Proof.
  revert s. induction n as [|n IH]; intros s; simpl; [done|].
  destruct (current s) as [cur|]; [|done].
  by destruct (pp_iteration h w cur s).
Qed.

Lemma pp_loop_turns n fuel s s' :
  pp_turns n h w s = Some s' → current s' = None → n ≤ fuel →
  pp_loop fuel h w s = Some s'.
Proof.
  revert fuel s. induction n as [|n IH]; intros fuel s; simpl.
  - intros [= ->] Hnone _. destruct fuel; simpl; by rewrite Hnone.
  - destruct (current s) as [cur|] eqn:Hcur; [|done].
    destruct (pp_iteration h w cur s) as [s1|] eqn:Hit; [|done].
    intros Hturns Hnone Hle. destruct fuel as [|fuel]; [lia|].
    simpl. rewrite Hcur, Hit. apply IH; [done..|lia].
Qed.

Lemma pp_turns_step n c s s' :
  current s = Some c → pp_iteration h w c s = Some s' →
  pp_turns (S n) h w s = pp_turns n h w s'.
Proof. intros Hc Hit. simpl. by rewrite Hc, Hit. Qed.

Lemma pp_iteration_next c r d its out k x :
  h !! c = Some r → its !! c = Some k → callees r !! k = Some x →
  pp_iteration h w c {| current := Some c; depth := d; callee_iterators := its;
                    output := out |}
  = Some {| current := Some x; depth := (d + 1)%Z;
            callee_iterators := <[c := S k]> its; output := out |}.
Proof.
  intros Hc Hk Hx. unfold pp_iteration. simpl.
  by rewrite Hc, Hk, Hk; simpl; rewrite Hx.
Qed.

Lemma pp_iteration_stop c r d its out k :
  h !! c = Some r → its !! c = Some k → callees r !! k = None →
  pp_iteration h w c {| current := Some c; depth := d; callee_iterators := its;
                    output := out |}
  = Some {| current := caller r; depth := (d - 1)%Z; callee_iterators := its;
            output := out ++ closing_lines d w r |}.
Proof.
  intros Hc Hk Hx. unfold pp_iteration. simpl.
  by rewrite Hc, Hk, Hk; simpl; rewrite Hx.
Qed.

(** The first turn on a record is the turn that would follow its header. *)
Lemma pp_iteration_register c r d its out :
  h !! c = Some r → its !! c = None →
  pp_iteration h w c {| current := Some c; depth := d; callee_iterators := its;
                    output := out |}
  = pp_iteration h w c {| current := Some c; depth := d;
                      callee_iterators := <[c := 0]> its;
                      output := out ++ node_lines d w r |}.
Proof.
  intros Hc Hk. unfold pp_iteration. simpl.
  by rewrite Hc, Hk, !lookup_insert_eq.
Qed.

Lemma pp_turns_register n c r d its out :
  h !! c = Some r → its !! c = None →
  pp_turns (S n) h w {| current := Some c; depth := d; callee_iterators := its;
                    output := out |}
  = pp_turns (S n) h w {| current := Some c; depth := d;
                      callee_iterators := <[c := 0]> its;
                      output := out ++ node_lines d w r |}.
Proof.
  intros Hc Hk. simpl. by rewrite (pp_iteration_register c r d its out).
Qed.

Local Abbreviation refs_all todo :=
  (concat (map (λ tb : call_tree value * bool, refs tb.1) todo)).

Lemma drop_cons_inv {A} (l l' : list A) k x :
  drop k l = x :: l' → l !! k = Some x ∧ drop (S k) l = l'.
Proof.
  intros Hdrop. split.
  - rewrite <- (Nat.add_0_r k), <- lookup_drop. by rewrite Hdrop.
  - rewrite <- (Nat.add_1_l k), Nat.add_comm, <- drop_drop. by rewrite Hdrop.
Qed.

Lemma drop_nil_lookup {A} (l : list A) k : drop k l = [] → l !! k = None.
Proof.
  intros Hdrop. apply lookup_ge_None.
  pose proof (length_drop l k) as Hlen. rewrite Hdrop in Hlen. simpl in Hlen.
  lia.
Qed.

Lemma known_frame b its its' (t : call_tree value) :
  (∀ x, x ∈ refs t → its' !! x = its !! x) →
  known b h its t → known b h its' t.
Proof.
  intros Hsame Hknown x Hx. specialize (Hknown x Hx).
  destruct b; [|by rewrite Hsame].
  destruct Hknown as (rx & k & ? & ? & ?). exists rx, k.
  by rewrite Hsame.
Qed.

(** The turns of the loop on a record it has printed the header of, from
    the turn that takes the callee at position [k] to the turn that finds
    the iterator exhausted. *)
Lemma pp_children c r d :
  h !! c = Some r →
  ∀ (todo : list (call_tree value * bool)) k its,
    drop k (callees r) = map (λ tb, root tb.1) todo →
    its !! c = Some k →
    c ∉ refs_all todo →
    NoDup (refs_all todo) →
    Forall (λ tb, known tb.2 h its tb.1) todo →
    Forall (λ tb, goes_through h w tb.2 tb.1 (Some c) (d + 1)) todo →
    ∃ its',
      (∀ out,
         pp_turns (S (turns_all todo)) h w
           {| current := Some c; depth := d; callee_iterators := its;
              output := out |}
         = Some {| current := caller r; depth := (d - 1)%Z;
                   callee_iterators := its';
                   output := out ++ lines_all w (d + 1) todo
                                 ++ closing_lines d w r |})
      ∧ (∀ y, y ≠ c → y ∉ refs_all todo → its' !! y = its !! y)
      ∧ exhausted_in h its' c
      ∧ (∀ y, y ∈ refs_all todo → exhausted_in h its' y).
Proof.
  intros Hc todo.
  induction todo as [|[t b] todo IH]; intros k its Hdrop Hk Hnotin Hnd Hknown Hgo.
  - exists its. split_and!.
    + intros out. simpl.
      rewrite (pp_iteration_stop c r d its out k); [done..|].
      by apply drop_nil_lookup.
    + done.
    + exists r, k. split_and!; [done..|].
      apply lookup_ge_None, drop_nil_lookup. exact Hdrop.
    + by intros y ?%elem_of_nil.
  - simpl in Hdrop, Hnotin, Hnd.
    apply drop_cons_inv in Hdrop as [Hnext Hdrop].
    apply not_elem_of_app in Hnotin as [Hct Hcrest].
    apply NoDup_app in Hnd as (_ & Hdisj & Hnd).
    apply Forall_cons in Hknown as [Hkt Hkrest].
    apply Forall_cons in Hgo as [Hgt Hgrest]. simpl in Hkt, Hgt.
    destruct (Hgt (<[c := S k]> its)) as (its2 & Hrun & Hframe & Hpost).
    { apply (known_frame b its); [|done].
      intros x Hx. apply lookup_insert_ne. by intros ->. }
    destruct (IH (S k) its2) as (its3 & Hrun' & Hframe' & Hexc & Hpost');
      [done| |done|done| |done|].
    { by rewrite Hframe, lookup_insert_eq. }
    { rewrite Forall_forall in Hkrest. apply Forall_forall.
      intros tb Htb. apply (known_frame _ its); [|by apply Hkrest].
      intros x Hx.
      assert (x ∈ refs_all todo) as Hxin
        by (apply elem_of_concat_map; eauto).
      rewrite Hframe by (intros Hxt; by apply (Hdisj x)).
      apply lookup_insert_ne. by intros ->. }
    exists its3. split_and!.
    + intros out.
      change (turns_all ((t, b) :: todo))
        with (S (turns b t + turns_all todo)).
      erewrite pp_turns_step; [|done|by apply (pp_iteration_next c r)].
      rewrite <- Nat.add_succ_r, pp_turns_add, Hrun. cbn [mbind option_bind].
      replace (d + 1 - 1)%Z with d by lia. rewrite Hrun'.
      unfold lines_all. simpl. by rewrite <- !app_assoc.
    + intros y Hy Hyn. simpl in Hyn.
      apply not_elem_of_app in Hyn as [Hyt Hyrest].
      rewrite Hframe' by done. rewrite Hframe by done.
      by apply lookup_insert_ne.
    + done.
    + intros y Hy. simpl in Hy. apply elem_of_app in Hy as [Hy|Hy]; [|by apply Hpost'].
      destruct (Hpost y Hy) as (ry & ky & ? & Hky & ?). exists ry, ky.
      split_and!; [done| |done]. rewrite Hframe'; [done| |by apply Hdisj].
      by intros ->.
Qed.

Local Abbreviation new_ones l :=
  (map (λ t : call_tree value, (t, false)) l).

Lemma refs_all_new (l : list (call_tree value)) :
  refs_all (new_ones l) = concat (map refs l).
Proof. by rewrite map_map. Qed.

Lemma turns_all_new (l : list (call_tree value)) :
  turns_all (new_ones l) = foldr (λ t' n, S (tree_turns t' + n)) 0 l.
Proof. induction l as [|t l IH]; simpl; [done|]. by rewrite <- IH. Qed.

Lemma lines_all_new d (l : list (call_tree value)) :
  lines_all w d (new_ones l) = concat (map (render w d) l).
Proof. unfold lines_all. by rewrite map_map. Qed.

Lemma lines_all_app d (l l' : list (call_tree value * bool)) :
  lines_all w d (l ++ l') = lines_all w d l ++ lines_all w d l'.
Proof. unfold lines_all. by rewrite map_app, concat_app. Qed.

Lemma lines_all_cons d b (t : call_tree value) l :
  lines_all w d ((t, b) :: l) = lines b w d t ++ lines_all w d l.
Proof. reflexivity. Qed.

Lemma NoDup_concat_map {A B} (f : A → list B) (l : list A) x :
  NoDup (concat (map f l)) → x ∈ l → NoDup (f x).
Proof.
  induction l as [|a l IH]; simpl; [by intros _ ?%elem_of_nil|].
  intros (Ha & _ & Hl)%NoDup_app [->|Hx]%elem_of_cons; auto.
Qed.

(** Coming again to a tree that was gone through takes one turn, which
    prints the closing marker of its root again when the root has callees. *)
Lemma goes_through_visited p d (t : call_tree value) :
  embeds h p t → goes_through h w true t p d.
Proof.
  destruct t as [c a kw res children]. intros [Hc _]%embeds_inv its Hknown.
  destruct (Hknown c) as (rx & k & Hrx & Hk & Hle); [simpl; by left|].
  rewrite Hc in Hrx. injection Hrx as <-.
  exists its. split_and!; [|done..].
  intros out. simpl turns.
  erewrite pp_turns_step;
    [|done|by eapply (pp_iteration_stop c _ d its out k), lookup_ge_None].
  simpl. rewrite closing_lines_marker. unfold reclose. simpl.
  by destruct children.
Qed.

(** Coming to a tree for the first time prints its rendering. *)
Lemma goes_through_new (t : call_tree value) :
  ∀ p d, embeds h p t → NoDup (refs t) → goes_through h w false t p d.
Proof.
  induction t as [c a kw res children IH] using call_tree_forall_ind.
  intros p d [Hc Hch]%embeds_inv Hnd its Hknown. simpl in Hnd.
  apply NoDup_cons in Hnd as [Hcnot Hnd].
  rewrite Forall_forall in IH, Hch.
  destruct (pp_children c _ d Hc (new_ones children) 0 (<[c := 0]> its))
    as (its' & Hrun & Hframe & Hexc & Hpost).
  - by rewrite map_map.
  - apply lookup_insert_eq.
  - by rewrite refs_all_new.
  - by rewrite refs_all_new.
  - apply Forall_forall. intros tb (t' & -> & Ht')%elem_of_map_iff x Hx. simpl.
    assert (x ∈ concat (map refs children)) as Hxin
      by (apply elem_of_concat_map; eauto).
    rewrite lookup_insert_ne by (by intros ->).
    apply (Hknown x). simpl. by right.
  - apply Forall_forall. intros tb (t' & -> & Ht')%elem_of_map_iff. simpl.
    apply IH; [done|by apply Hch|by apply (NoDup_concat_map refs children)].
  - rewrite refs_all_new in Hframe, Hpost. exists its'. split_and!.
    + intros out. simpl turns. rewrite <- turns_all_new.
      rewrite (pp_turns_register _ c _ d its out Hc)
        by (apply (Hknown c); simpl; by left).
      rewrite Hrun, lines_all_new, node_lines_markers, closing_lines_marker.
      simpl. destruct children; simpl; by rewrite <- ?app_assoc.
    + intros y Hy. simpl in Hy. apply not_elem_of_cons in Hy as [Hyc Hy].
      rewrite Hframe by done. by apply lookup_insert_ne.
    + intros x [->|Hx]%elem_of_cons; [done|by apply Hpost].
Qed.

Lemma tree_turns_nodes (t : call_tree value) : S (tree_turns t) = 2 * nodes t.
Proof.
  induction t as [c a kw res children IH] using call_tree_forall_ind. simpl.
  induction IH as [|t l Ht _ IHl]; simpl; lia.
Qed.

(** [pretty_print] on a root: the loop ends, with the rendering of the tree
    printed and an iterator made for the records of the tree, no other. *)
Lemma pp_loop_root (t : call_tree value) :
  embeds h None t → NoDup (refs t) →
  ∃ its',
    (∀ fuel, tree_turns t ≤ fuel →
       pp_loop fuel h w (pp_start (root t))
       = Some {| current := None; depth := (-1)%Z; callee_iterators := its';
                 output := render w 0 t |})
    ∧ (∀ x, is_Some (its' !! x) ↔ x ∈ refs t).
Proof.
  intros Hemb Hnd.
  destruct (goes_through_new t None 0 Hemb Hnd ∅) as (its' & Hrun & Hframe & Hpost).
  { intros x _. apply lookup_empty. }
  exists its'. split.
  - intros fuel Hfuel. by apply (pp_loop_turns (tree_turns t)); [apply Hrun|..].
  - intros x. split.
    + intros Hsome. destruct (decide (x ∈ refs t)) as [|Hx]; [done|].
      rewrite (Hframe x Hx), lookup_empty in Hsome. by destruct Hsome.
    + intros Hx. destruct (Hpost x Hx) as (rx & k & _ & -> & _). eauto.
Qed.

(** ** Starting below the root *)

Lemma embeds_plug (ctx : list (frame value)) :
  ∀ t, embeds h None (plug ctx t) → embeds h (parent_of ctx) t.
Proof.
  induction ctx as [|f ctx IH]; intros t Hemb; simpl in *; [done|].
  apply IH in Hemb. apply embeds_inv in Hemb as [_ Hch].
  apply Forall_app in Hch as [_ Hch]. by apply Forall_cons in Hch as [Ht _].
Qed.

Lemma refs_fill f (t : call_tree value) x : x ∈ refs t → x ∈ refs (fill f t).
Proof.
  intros Hx. simpl. right. apply elem_of_concat_map. exists t.
  split; [|done]. apply elem_of_app. right. by left.
Qed.

Lemma NoDup_refs_plug (ctx : list (frame value)) :
  ∀ t, NoDup (refs (plug ctx t)) → NoDup (refs t).
Proof.
  induction ctx as [|f ctx IH]; intros t Hnd; simpl in *; [done|].
  apply IH in Hnd. simpl in Hnd. apply NoDup_cons in Hnd as [_ Hnd].
  apply (NoDup_concat_map refs _ t) in Hnd; [done|].
  apply elem_of_app. right. by left.
Qed.

Lemma refs_plug (ctx : list (frame value)) :
  ∀ t x, x ∈ refs t → x ∈ refs (plug ctx t).
Proof.
  induction ctx as [|f ctx IH]; intros t x Hx; simpl; [done|].
  by apply IH, refs_fill.
Qed.

(** Once through the tree it started on, the loop goes up the callers to
    the root, going through what it has not seen on the way. *)
Lemma pp_turns_climb (ctx : list (frame value)) :
  ∀ t d its,
    embeds h None (plug ctx t) → NoDup (refs (plug ctx t)) →
    known true h its t →
    (∀ y, y ∈ refs (plug ctx t) → y ∉ refs t → its !! y = None) →
    ∃ n its',
      ∀ out,
        pp_turns n h w {| current := parent_of ctx; depth := d;
                          callee_iterators := its; output := out |}
        = Some {| current := None; depth := (d - Z.of_nat (length ctx))%Z;
                  callee_iterators := its';
                  output := out ++ climb w d t ctx |}.
Proof.
  induction ctx as [|f ctx IH]; intros t d its Hemb Hnd Hknown Hnew.
  { exists 0, its. intros out. simpl.
    rewrite app_nil_r. by replace (d - Z.of_nat 0)%Z with d by lia. }
  simpl in Hemb, Hnd, Hnew.
  pose proof (embeds_plug ctx _ Hemb) as Hfill.
  pose proof (NoDup_refs_plug ctx _ Hnd) as Hndfill.
  apply embeds_inv in Hfill as [Hc Hch]. simpl in Hndfill.
  apply NoDup_cons in Hndfill as [Hcnot Hndch].
  set (c := frame_ref f) in *.
  set (todo := new_ones (elder f) ++ (t, true) :: new_ones (younger f)).
  assert (refs_all todo = concat (map refs (elder f ++ t :: younger f)))
    as Hrefs.
  { unfold todo. rewrite !map_app, !concat_app. simpl.
    by rewrite !map_map. }
  assert (c ∉ refs t) as Hct.
  { intros Hin. apply Hcnot, elem_of_concat_map. exists t. split; [|done].
    apply elem_of_app. right. by left. }
  assert (its !! c = None) as Hcnew.
  { apply Hnew; [|done]. apply refs_plug. simpl. by left. }
  rewrite Forall_forall in Hch.
  destruct (pp_children c _ d Hc todo 0 (<[c := 0]> its))
    as (its1 & Hrun & Hframe & Hexc & Hpost).
  - simpl. unfold todo. rewrite !map_app. simpl. by rewrite !map_map.
  - apply lookup_insert_eq.
  - by rewrite Hrefs.
  - by rewrite Hrefs.
  - apply Forall_forall. intros tb Htb.
    assert (∀ x, x ∈ refs tb.1 → x ∈ concat (map refs (elder f ++ t :: younger f)))
      as Hsub.
    { intros x Hx. rewrite <- Hrefs. apply elem_of_concat_map. eauto. }
    apply elem_of_app in Htb as [Htb|Htb];
      [|apply elem_of_cons in Htb as [->|Htb]].
    + apply elem_of_map_iff in Htb as (t' & -> & Ht'). intros x Hx. simpl.
      rewrite lookup_insert_ne by (intros ->; by apply Hcnot, Hsub).
      apply Hnew; [apply refs_plug; simpl; right; by apply Hsub|].
      intros Hxt. simpl in Hx.
      rewrite !map_app, !concat_app in Hndch. simpl in Hndch.
      apply NoDup_app in Hndch as (_ & Hdisj & _).
      apply (Hdisj x); [apply elem_of_concat_map; eauto|].
      apply elem_of_app. by left.
    + simpl. apply (known_frame true its); [|done].
      intros x Hx. apply lookup_insert_ne. by intros ->.
    + apply elem_of_map_iff in Htb as (t' & -> & Ht'). intros x Hx. simpl.
      rewrite lookup_insert_ne by (intros ->; by apply Hcnot, Hsub).
      apply Hnew; [apply refs_plug; simpl; right; by apply Hsub|].
      intros Hxt. simpl in Hx.
      rewrite !map_app, !concat_app in Hndch. simpl in Hndch.
      apply NoDup_app in Hndch as (_ & _ & Hndch).
      apply NoDup_app in Hndch as (_ & Hdisj & _).
      apply (Hdisj x); [done|]. apply elem_of_concat_map; eauto.
  - apply Forall_forall. intros tb Htb.
    apply elem_of_app in Htb as [Htb|Htb];
      [|apply elem_of_cons in Htb as [->|Htb]].
    + apply elem_of_map_iff in Htb as (t' & -> & Ht'). simpl.
      apply goes_through_new.
      * apply Hch, elem_of_app. by left.
      * apply (NoDup_concat_map refs _ t') in Hndch; [done|].
        apply elem_of_app. by left.
    + simpl. apply goes_through_visited, Hch, elem_of_app. right. by left.
    + apply elem_of_map_iff in Htb as (t' & -> & Ht'). simpl.
      apply goes_through_new.
      * apply Hch, elem_of_app. right. by right.
      * apply (NoDup_concat_map refs _ t') in Hndch; [done|].
        apply elem_of_app. right. by right.
  - rewrite Hrefs in Hframe, Hpost.
    destruct (IH (fill f t) (d - 1)%Z its1 Hemb Hnd) as (n2 & its2 & Hrun2).
    + intros x [->|Hx]%elem_of_cons; [done|by apply Hpost].
    + intros y Hy Hyn. simpl in Hyn. apply not_elem_of_cons in Hyn as [Hyc Hyn].
      rewrite Hframe by done. rewrite lookup_insert_ne by done.
      apply Hnew; [done|]. intros Hyt. apply Hyn, elem_of_concat_map.
      exists t. split; [|done]. apply elem_of_app. right. by left.
    + exists (S (turns_all todo) + n2), its2. intros out.
      rewrite pp_turns_add. cbn [parent_of]. fold c.
      rewrite (pp_turns_register _ c _ d its out Hc Hcnew), Hrun.
      cbn [mbind option_bind]. rewrite Hrun2. f_equal.
      replace (d - 1 - Z.of_nat (length ctx))%Z
        with (d - Z.of_nat (length (f :: ctx)))%Z by (simpl length; lia).
      f_equal. rewrite node_lines_markers, closing_lines_marker. simpl.
      unfold todo. rewrite lines_all_app, lines_all_cons, !lines_all_new.
      destruct (map root (elder f ++ t :: younger f)) eqn:Hmap.
      { apply (f_equal length) in Hmap.
        rewrite length_map, length_app in Hmap. simpl in Hmap. lia. }
      simpl. by rewrite <- !app_assoc.
Qed.

(** ** The claims on the printer *)

Lemma length_render d (t : call_tree value) :
  length (render w d t) = 5 * nodes t + parents t.
Proof.
  revert d. induction t as [c a kw res children IH] using call_tree_forall_ind.
  intros d. cbn [render nodes parents]. rewrite length_app. simpl length at 1.
  assert (length (concat (map (render w (d + 1)) children))
          = 5 * foldr (λ t' n, nodes t' + n) 0 children
            + foldr (λ t' n, parents t' + n) 0 children) as Hch.
  { induction IH as [|t l Ht _ IHl]; simpl; [done|].
    rewrite length_app, Ht, IHl. lia. }
  destruct children as [|t l]; [simpl; lia|].
  rewrite !length_app, Hch. simpl length. lia.
Qed.

(** C5. On the root of a tree, each record of which is the callee of one
    record only, the loop ends, within twice as many turns as the tree has
    nodes; it has then made an iterator, and with it printed the header and
    the fields, for every record of the tree and for no other, each once:
    five lines for each node, and a closing marker for each node that has
    callees. *)
Theorem pretty_print_terminates_visiting_once (t : call_tree value) :
  embeds h None t → NoDup (refs t) →
  ∀ fuel, 2 * nodes t ≤ fuel →
  ∃ s, pp_loop fuel h w (pp_start (root t)) = Some s
       ∧ current s = None
       ∧ (∀ x, is_Some (callee_iterators s !! x) ↔ x ∈ refs t)
       ∧ pretty_print fuel h (root t) w = Some (output s)
       ∧ length (output s) = 5 * nodes t + parents t.
Proof.
  intros Hemb Hnd fuel Hfuel.
  destruct (pp_loop_root t Hemb Hnd) as (its' & Hloop & Hdom).
  pose proof (tree_turns_nodes t) as Hturns.
  eexists. split_and!; [apply Hloop; lia|done|exact Hdom| |apply length_render].
  unfold pretty_print. rewrite Hloop by lia. done.
Qed.

(** C6. On the root of such a tree [pretty_print] prints the rendering of
    the tree: for each node its header, its three fields, then its callees
    in order between the opening and the closing marker, or the empty
    marker; a node before its callees. *)
Theorem pretty_print_renders_preorder (t : call_tree value) :
  embeds h None t → NoDup (refs t) →
  ∀ fuel, 2 * nodes t ≤ fuel →
  pretty_print fuel h (root t) w = Some (render w 0 t).
Proof.
  intros Hemb Hnd fuel Hfuel.
  destruct (pp_loop_root t Hemb Hnd) as (its' & Hloop & _).
  pose proof (tree_turns_nodes t) as Hturns.
  unfold pretty_print. rewrite Hloop by lia. done.
Qed.

(** C7, as the code has it. At depth [d] and width [i], neither negative,
    the header of a node comes after exactly [i * d * 2] spaces; its fields,
    its opening or empty marker and its closing marker come after exactly
    [i * d * 2 + i] spaces. *)
Theorem indentation_of_lines d i (r : RecursiveCall value) :
  (0 ≤ d)%Z → (0 ≤ i)%Z →
  ∃ plain hanging,
    Z.of_nat plain = (i * d * 2)%Z
    ∧ Z.of_nat hanging = (i * d * 2 + i)%Z
    ∧ String.length (str_repeat " " plain) = plain
    ∧ String.length (str_repeat " " hanging) = hanging
    ∧ node_lines d i r
      = [ str_repeat " " plain +:+ "RecursiveCall";
          str_repeat " " hanging +:+ "result=" +:+ repr_result (result r);
          str_repeat " " hanging +:+ "args=" +:+ repr_args (args r);
          str_repeat " " hanging +:+ "kwargs="
            +:+ prettify_kwargs_repr (kwargs r) +:+ ")";
          match callees r with
          | [] => str_repeat " " hanging +:+ "callees=[]"
          | _ :: _ => str_repeat " " hanging +:+ "callees=["
          end ]
    ∧ closing_lines d i r
      = match callees r with
        | [] => []
        | _ :: _ => [str_repeat " " hanging +:+ "],"]
        end.
Proof.
  intros Hd Hi. exists (Z.to_nat (i * d * 2)), (Z.to_nat (i * d * 2 + i)).
  split_and!; [lia|lia|apply length_str_repeat..| |].
  - unfold node_lines. by rewrite indent_plain, indent_hanging.
  - unfold closing_lines. by rewrite indent_hanging.
Qed.

(** C10. Called on a record [t] stands for, with the ancestors [ctx] above
    it, [pretty_print] ends and prints the rendering of [t] followed by what
    the way up to the root gives: nothing when the record is a root, and
    otherwise, for each ancestor from the caller up, its header and fields
    at a negative depth, its other callees in full, the closing marker of
    the tree it came from once more, and its own closing marker. *)
Theorem pretty_print_climbs_to_root (ctx : list (frame value))
    (t : call_tree value) :
  embeds h None (plug ctx t) → NoDup (refs (plug ctx t)) →
  caller <$> h !! root t = Some (parent_of ctx)
  ∧ ∃ n out,
      (∀ fuel, n ≤ fuel → pretty_print fuel h (root t) w = Some out)
      ∧ out = render w 0 t ++ climb w (-1) t ctx
      ∧ (out = render w 0 t ↔ parent_of ctx = None).
Proof.
  intros Hemb Hnd.
  pose proof (embeds_plug ctx t Hemb) as Ht.
  pose proof (NoDup_refs_plug ctx t Hnd) as Hndt.
  split.
  { destruct t as [c a kw res children].
    apply embeds_inv in Ht as [Hc _]. simpl. by rewrite Hc. }
  destruct (goes_through_new t (parent_of ctx) 0 Ht Hndt ∅)
    as (its1 & Hrun1 & Hframe & Hpost).
  { intros x _. apply lookup_empty. }
  destruct (pp_turns_climb ctx t (-1) its1 Hemb Hnd Hpost)
    as (n2 & its2 & Hrun2).
  { intros y _ Hy. by rewrite Hframe, lookup_empty. }
  exists (tree_turns t + n2), (render w 0 t ++ climb w (-1) t ctx).
  split_and!; [|done|].
  - intros fuel Hfuel. unfold pretty_print.
    rewrite (pp_loop_turns (tree_turns t + n2) fuel _
               {| current := None; depth := (-1 - Z.of_nat (length ctx))%Z;
                  callee_iterators := its2;
                  output := render w 0 t ++ climb w (-1) t ctx |});
      [done| |done|done].
    change (turns false t) with (tree_turns t) in Hrun1.
    rewrite pp_turns_add. unfold pp_start.
    rewrite (Hrun1 []). cbn [mbind option_bind].
    replace (0 - 1)%Z with (-1)%Z by lia. by rewrite Hrun2.
  - destruct ctx as [|f ctx]; simpl.
    + by rewrite app_nil_r.
    + split; [|done]. intros Heq.
      apply (f_equal length) in Heq. rewrite length_app in Heq.
      unfold head_lines in Heq. simpl in Heq. lia.
Qed.

End Printer_properties.

(** ** The wrapper on the instances *)

Lemma wrapper_returns_result_fib :
  ∃ st', wrapper 4 fib 1%Z [3%Z] [] CallTracker_init
         = Some (Returned 2%Z, st').
Proof.
  eapply (wrapper_returns_result 4 fib 1%Z [3%Z] []); reflexivity.
Defined.

Lemma wrapper_failure_not_popped_checked :
  ∃ st', wrapper 1 checked 1%Z [(-1)%Z] [] CallTracker_init
         = Some (Raised (Failure "ValueError"), st')
         ∧ [0] `prefix_of` call_stack_of 1%Z st'.
Proof.
  eapply (wrapper_failure_not_popped 1 checked 1%Z [(-1)%Z] []); reflexivity.
Defined.

(** After a call that failed, the next call from outside is not a root: it
    is made a callee of the record of the failed call. *)
Lemma call_after_failure_is_misattributed :
  ∃ st,
    wrapper_seq 1 checked 1%Z [([(-1)%Z], []); ([5%Z], [])] CallTracker_init
    = Some ([Raised (Failure "ValueError"); Returned 5%Z], st)
    ∧ start_calls st = [0]
    ∧ call_stack_of 1%Z st = [0]
    ∧ heap st
      = [ {| caller := None; callees := [1]; args := [(-1)%Z]; kwargs := [];
             result := UNINITIALIZED |};
          {| caller := Some 0; callees := []; args := [5%Z]; kwargs := [];
             result := Value 5%Z |} ].
Proof. eexists. split; [reflexivity|]. by vm_compute. Qed.

(** C4, what the code does. [guarded] called on [0]: the call below fails
    and its record stays on the stack; the call on [0] returns [7], pops the
    record of the failed call and stores [7] in it. The record of the call
    that returned keeps [UNINITIALIZED] and stays on the stack; the record
    of the call that never returned holds a result. *)
Lemma result_stored_in_wrong_record :
  ∃ st,
    wrapper 2 guarded 1%Z [0%Z] [] CallTracker_init = Some (Returned 7%Z, st)
    ∧ result <$> heap st !! 0 = Some UNINITIALIZED
    ∧ result <$> heap st !! 1 = Some (Value 7%Z)
    ∧ call_stack_of 1%Z st = [0].
Proof. eexists. split; [reflexivity|]. by vm_compute. Qed.

Lemma tracked_calls_build_call_forest_fib :
  ∃ st,
    wrapper_seq 4 fib 1%Z [([3%Z], []); ([1%Z], [])] CallTracker_init
    = Some ([Returned 2%Z; Returned 1%Z], st)
    ∧ length (heap st) = 6
    ∧ start_calls st = [0; 5]
    ∧ (∀ c d, (c, d) ∈ [(0, 0); (1, 1); (2, 2); (3, 2); (4, 1); (5, 0)] →
         has_depth (heap st) c d).
Proof.
  destruct (tracked_calls_build_call_forest 4 fib 1%Z
              [([3%Z], []); ([1%Z], [])]
              [Invocation [3%Z] []
                 [Invocation [2%Z] []
                    [Invocation [1%Z] [] [] (Returned 1%Z);
                     Invocation [0%Z] [] [] (Returned 0%Z)] (Returned 1%Z);
                  Invocation [1%Z] [] [] (Returned 1%Z)] (Returned 2%Z);
               Invocation [1%Z] [] [] (Returned 1%Z)])
    as (st & Hrun & Hlen & _ & Hroots & _ & _ & _ & _ & Hdepth).
  - repeat constructor.
  - repeat constructor; simpl; eauto.
  - exists st. split_and!; [exact Hrun | exact Hlen | exact Hroots | exact Hdepth].
Defined.

(** ** The printer on the instances *)

Lemma fib3_store_is_tracked :
  ∃ st, wrapper 4 fib 1%Z [3%Z] [] CallTracker_init = Some (Returned 2%Z, st)
        ∧ heap st = fib3_store.
Proof. eexists. split; reflexivity. Qed.

Lemma fib3_embeds : embeds fib3_store None fib3_tree.
Proof. repeat constructor. Defined.

Lemma fib3_NoDup : NoDup (refs fib3_tree).
Proof. apply NoDup_ListNoDup. repeat constructor; simpl; intuition lia. Defined.

Lemma pretty_print_terminates_visiting_once_fib3 :
  ∃ s, pp_loop 10 fib3_store 4 (pp_start 0) = Some s
       ∧ current s = None
       ∧ (∀ x, is_Some (callee_iterators s !! x) ↔ x ∈ [0; 1; 2; 3; 4])
       ∧ pretty_print 10 fib3_store 0 4 = Some (output s)
       ∧ length (output s) = 27.
Proof.
  apply (pretty_print_terminates_visiting_once fib3_store 4 fib3_tree
           fib3_embeds fib3_NoDup 10).
  simpl. lia.
Defined.

Lemma pretty_print_renders_preorder_fib3 :
  pretty_print 10 fib3_store 0 4
  = Some
      [ "RecursiveCall"; "    result=2"; "    args=(3,)"; "    kwargs=)";
        "    callees=[";
        "        RecursiveCall"; "            result=1";
        "            args=(2,)"; "            kwargs=)";
        "            callees=[";
        "                RecursiveCall"; "                    result=1";
        "                    args=(1,)"; "                    kwargs=)";
        "                    callees=[]";
        "                RecursiveCall"; "                    result=0";
        "                    args=(0,)"; "                    kwargs=)";
        "                    callees=[]";
        "            ],";
        "        RecursiveCall"; "            result=1";
        "            args=(1,)"; "            kwargs=)";
        "            callees=[]";
        "    ]," ].
Proof.
  refine (eq_trans (pretty_print_renders_preorder fib3_store 4 fib3_tree
                      fib3_embeds fib3_NoDup 10 _) _).
  - simpl. lia.
  - vm_compute. reflexivity.
Defined.

Lemma indentation_of_lines_depth_2 :
  ∃ plain hanging,
    Z.of_nat plain = 16%Z
    ∧ Z.of_nat hanging = 20%Z
    ∧ String.length (str_repeat " " plain) = plain
    ∧ String.length (str_repeat " " hanging) = hanging
    ∧ node_lines 2 4 (RecursiveCall_init [1%Z] [])
      = [ str_repeat " " plain +:+ "RecursiveCall";
          str_repeat " " hanging +:+ "result=UNINITIALIZED";
          str_repeat " " hanging +:+ "args=(1,)";
          str_repeat " " hanging +:+ "kwargs=)";
          str_repeat " " hanging +:+ "callees=[]" ]
    ∧ closing_lines 2 4 (RecursiveCall_init [1%Z] []) = [].
Proof.
  destruct (indentation_of_lines 2 4 (RecursiveCall_init [1%Z] []))
    as (plain & hanging & Hp & Hh & Hlp & Hlh & Hnode & Hclose); [lia..|].
  exists plain, hanging. split_and!; [exact Hp|exact Hh|exact Hlp|exact Hlh| |].
  - rewrite Hnode. vm_compute. reflexivity.
  - exact Hclose.
Defined.

(** C7 as it is written fails: the closing marker of the root ([d = 0]),
    printed with a width of 4, comes after 4 spaces, not after
    [4 * 0 * 2 = 0]. *)
Lemma closing_marker_is_indented_as_a_field :
  ∃ r, fib3_store !! 0 = Some r
       ∧ closing_lines 0 4 r = ["    ],"]
       ∧ closing_lines 0 4 r ≠ [str_mul " " (4 * 0 * 2) +:+ "],"]
       ∧ last <$> pretty_print 10 fib3_store 0 4 = Some (Some "    ],").
Proof. eexists. split_and!; [reflexivity|reflexivity|discriminate|reflexivity]. Qed.

Lemma pretty_print_climbs_to_root_fib2 :
  caller <$> fib3_store !! 1 = Some (Some 0)
  ∧ ∃ n out,
      (∀ fuel, n ≤ fuel → pretty_print fuel fib3_store 1 4 = Some out)
      ∧ out
        = [ "RecursiveCall"; "    result=1"; "    args=(2,)"; "    kwargs=)";
            "    callees=[";
            "        RecursiveCall"; "            result=1";
            "            args=(1,)"; "            kwargs=)";
            "            callees=[]";
            "        RecursiveCall"; "            result=0";
            "            args=(0,)"; "            kwargs=)";
            "            callees=[]";
            "    ]," ]
          ++ [ "RecursiveCall"; "result=2"; "args=(3,)"; "kwargs=)";
               "callees=[";
               "    ],";
               "RecursiveCall"; "    result=1"; "    args=(1,)";
               "    kwargs=)"; "    callees=[]";
               "]," ]
      ∧ (out = render 4 0 fib2_tree ↔ Some 0 = None).
Proof.
  destruct (pretty_print_climbs_to_root fib3_store 4 [fib3_frame] fib2_tree
              fib3_embeds fib3_NoDup) as (Hcaller & n & out & Hrun & Hout & Hiff).
  split; [exact Hcaller|]. exists n, out.
  split_and!; [exact Hrun| |exact Hiff].
  rewrite Hout. vm_compute. reflexivity.
Defined.

(** C8 as it is written fails: record 2 is a callee of record 0; attaching
    it to record 1 completes, and leaves it among the callees of both. *)
Lemma add_callee_on_attached_record_completes :
  add_callee 1 2 attached_store
  = [ {| caller := None; callees := [2]; args := [0%Z]; kwargs := [];
         result := UNINITIALIZED |};
      {| caller := None; callees := [2]; args := [1%Z]; kwargs := [];
         result := UNINITIALIZED |};
      {| caller := Some 1; callees := []; args := [2%Z]; kwargs := [];
         result := UNINITIALIZED |} ].
Proof. reflexivity. Qed.

Lemma add_callee_never_refuses_attached :
  length (add_callee 1 2 attached_store) = 3
  ∧ callees <$> add_callee 1 2 attached_store !! 1 = Some ([] ++ [2])
  ∧ caller <$> add_callee 1 2 attached_store !! 2 = Some (Some 1)
  ∧ (∀ i, i ≠ 1 → i ≠ 2 →
       add_callee 1 2 attached_store !! i = attached_store !! i)
  ∧ (∀ tid r st,
       leave (value := Z) tid r st = None ↔ call_stack_of tid st = []).
Proof.
  apply (add_callee_never_refuses attached_store 1 2
           {| caller := None; callees := []; args := [1%Z]; kwargs := [];
              result := UNINITIALIZED |}
           {| caller := Some 0; callees := []; args := [2%Z]; kwargs := [];
              result := UNINITIALIZED |}); reflexivity.
Defined.

(** * What every execution keeps, the failing ones included *)

Section Tracker_invariants.

Context {value exn : Type}.

Implicit Types (st : State value) (t : invocation value exn).
Implicit Types (h : list (RecursiveCall value)).

(** ** One step at a time *)

Lemma track_invariant tid (I : State value → Prop) :
  (∀ a kw st, I st → I (enter tid a kw st)) →
  (∀ r st st', I st → leave tid r st = Some st' → I st') →
  ∀ t st, I st → I (track tid t st).
Proof.
  intros Henter Hleave.
  induction t as [a kw subs o IH] using invocation_forall_ind.
  intros st HI. simpl.
  assert (I (foldl (λ s t', track tid t' s) (enter tid a kw st) subs)) as HI2.
  { generalize (enter tid a kw st) (Henter a kw st HI).
    induction IH as [|t subs Ht _ IHsubs]; intros st1 HI1; simpl; auto. }
  destruct o as [r|e]; [|done].
  destruct (leave tid r _) as [st3|] eqn:Hl; simpl; eauto.
Qed.

Lemma enter_old tid a kw st c r :
  heap st !! c = Some r →
  ∃ r', heap (enter tid a kw st) !! c = Some r'
        ∧ args r' = args r ∧ kwargs r' = kwargs r ∧ caller r' = caller r
        ∧ result r' = result r ∧ callees r `prefix_of` callees r'.
Proof.
  intros Hc. pose proof (lookup_lt_Some _ _ _ Hc) as Hlt. unfold enter.
  destruct (last (call_stack_of tid st)) as [top|]; simpl.
  - unfold add_callee. rewrite list_lookup_alter_ne by lia.
    rewrite list_lookup_alter, (lookup_app_l_Some _ _ _ _ Hc).
    case_decide as Htop.
    + subst top. rewrite (lookup_app_l_Some _ _ _ _ Hc). simpl.
      eexists. split_and!; [done..|]. simpl. by apply prefix_app_r.
    + eauto 10.
  - rewrite (lookup_app_l_Some _ _ _ _ Hc). eauto 10.
Qed.

Lemma enter_new tid a kw st :
  ∃ r', heap (enter tid a kw st) !! length (heap st) = Some r'
        ∧ args r' = a ∧ kwargs r' = kw ∧ result r' = UNINITIALIZED.
Proof.
  assert ((heap st ++ [RecursiveCall_init a kw]) !! length (heap st)
          = Some (RecursiveCall_init a kw)) as Hn
    by by apply list_lookup_middle.
  unfold enter. destruct (last (call_stack_of tid st)) as [top|]; simpl;
    [|eauto].
  unfold add_callee. rewrite list_lookup_alter_eq, list_lookup_alter.
  case_decide as Heq; [rewrite Heq|]; rewrite Hn; simpl; eauto.
Qed.

Lemma leave_old tid r st st' c rc :
  leave tid r st = Some st' → heap st !! c = Some rc →
  ∃ r', heap st' !! c = Some r'
        ∧ args r' = args rc ∧ kwargs r' = kwargs rc ∧ caller r' = caller rc
        ∧ callees r' = callees rc
        ∧ (result r' = result rc
           ∨ last (call_stack_of tid st) = Some c ∧ result r' = Value r).
Proof.
  unfold leave. destruct (last (call_stack_of tid st)) as [top|]; [|done].
  intros [= <-] Hc. simpl. rewrite list_lookup_alter.
  case_decide as Htop; [subst top; rewrite Hc; simpl|]; eauto 10.
Qed.

Lemma length_heap_leave tid r st st' :
  leave tid r st = Some st' → length (heap st') = length (heap st).
Proof.
  unfold leave. destruct (last (call_stack_of tid st)); [|done].
  intros [= <-]. simpl. apply length_alter.
Qed.

Lemma start_calls_leave tid r st st' :
  leave tid r st = Some st' → start_calls st' = start_calls st.
Proof.
  unfold leave. destruct (last (call_stack_of tid st)); [|done].
  by intros [= <-].
Qed.

(** ** The history *)

Lemma kept_refl h : kept h h.
Proof. intros c r Hc. eauto 10. Qed.

Lemma kept_trans h1 h2 h3 : kept h1 h2 → kept h2 h3 → kept h1 h3.
Proof.
  intros H12 H23 c r Hc.
  destruct (H12 c r Hc) as (r2 & Hc2 & ? & ? & ? & ?).
  destruct (H23 c r2 Hc2) as (r3 & Hc3 & ? & ? & ? & ?).
  exists r3. split_and!; [done|congruence..|by etrans].
Qed.

Lemma kept_enter tid a kw st : kept (heap st) (heap (enter tid a kw st)).
Proof.
  intros c r Hc.
  destruct (enter_old tid a kw st c r Hc) as (r' & ? & ? & ? & ? & ? & ?).
  eauto 10.
Qed.

Lemma kept_leave tid r st st' :
  leave tid r st = Some st' → kept (heap st) (heap st').
Proof.
  intros Hl c rc Hc.
  destruct (leave_old tid r st st' c rc Hl Hc) as (r' & ? & ? & ? & ? & Hcs & _).
  exists r'. split_and!; [done..|by rewrite Hcs].
Qed.

Lemma kept_track tid t st : kept (heap st) (heap (track tid t st)).
Proof.
  apply (track_invariant tid (λ s, kept (heap st) (heap s)));
    [| |apply kept_refl].
  - intros a kw s Hs. eapply kept_trans; [done|apply kept_enter].
  - intros r s s' Hs Hl. eapply kept_trans; [done|by eapply kept_leave].
Qed.

Lemma kept_foldl_track tid subs st :
  kept (heap st) (heap (foldl (λ s t', track tid t' s) st subs)).
Proof.
  revert st. induction subs as [|t subs IH]; intros st; simpl.
  - apply kept_refl.
  - eapply kept_trans; [apply kept_track|apply IH].
Qed.

(** X1. Whether the function returns or fails, the call has a record, at
    the end of the store as it was, with the arguments of the call; and the
    records that were there are still there, with the arguments and the
    caller they had, their callees at most extended at the end. *)
Theorem wrapper_keeps_history fuel func tid a kw t st :
  execute fuel func a kw = Some t →
  ∃ st', wrapper fuel func tid a kw st = Some (outcome_of t, st')
         ∧ kept (heap st) (heap st')
         ∧ ∃ r, heap st' !! length (heap st) = Some r
                ∧ args r = a ∧ kwargs r = kw.
Proof.
  intros Ht. exists (track tid t st).
  split; [by apply wrapper_track|]. split; [apply kept_track|].
  destruct fuel as [|fuel]; [done|]. simpl in Ht.
  destruct (trace_body _ (func a kw)) as [[subs o]|]; [|done].
  injection Ht as <-.
  destruct (enter_new tid a kw st) as (r1 & Hr1 & Ha & Hkw & _).
  assert (kept (heap (enter tid a kw st))
            (heap (track tid (Invocation a kw subs o) st))) as Hkept.
  { simpl. eapply kept_trans; [apply kept_foldl_track|].
    destruct o as [r|e]; [|apply kept_refl].
    destruct (leave tid r _) as [st3|] eqn:Hl; simpl;
      [by eapply kept_leave|apply kept_refl]. }
  destruct (Hkept _ _ Hr1) as (r' & Hr' & ? & ? & _).
  exists r'. split_and!; [done|congruence..].
Qed.

(** ** Results *)








(** ** Root calls *)

Lemma start_calls_enter tid a kw st :
  start_calls (enter tid a kw st)
  = start_calls st ++ match call_stack_of tid st with
                      | [] => [length (heap st)]
                      | _ :: _ => []
                      end.
Proof.
  unfold enter. destruct (call_stack_of tid st) as [|c s] eqn:Hs; [done|].
  destruct (last_is_Some (c :: s)) as [top ->]; [done|].
  simpl. by rewrite app_nil_r.
Qed.

Lemma prefix_not_nil {A} (l k : list A) : l `prefix_of` k → l ≠ [] → k ≠ [].
Proof. intros [m ->] Hl. by destruct l. Qed.

Lemma track_start_calls tid t :
  ∀ st, call_stack_of tid st ≠ [] →
        start_calls (track tid t st) = start_calls st.
Proof.
  induction t as [a kw subs o IH] using invocation_forall_ind.
  intros st Hs. simpl.
  assert (∀ st1, call_stack_of tid st1 ≠ [] →
            start_calls (foldl (λ s t', track tid t' s) st1 subs)
            = start_calls st1) as Hsubs.
  { induction IH as [|t subs Ht _ IHsubs]; intros st1 Hs1; simpl; [done|].
    rewrite IHsubs, Ht; [done..|].
    eapply prefix_not_nil; [apply track_stack_prefix|done]. }
  assert (start_calls (foldl (λ s t', track tid t' s) (enter tid a kw st) subs)
          = start_calls st) as Hfold.
  { rewrite Hsubs.
    - rewrite start_calls_enter. destruct (call_stack_of tid st); [done|].
      by rewrite app_nil_r.
    - rewrite call_stack_of_enter. by destruct (call_stack_of tid st). }
  destruct o as [r|e]; [|done].
  destruct (leave tid r _) as [st3|] eqn:Hl; simpl; [|done].
  by rewrite (start_calls_leave _ _ _ _ Hl).
Qed.

Lemma foldl_track_start_calls tid (subs : list (invocation value exn)) :
  ∀ st, call_stack_of tid st ≠ [] →
        start_calls (foldl (λ s t', track tid t' s) st subs) = start_calls st.
Proof.
  induction subs as [|t subs IH]; intros st Hs; simpl; [done|].
  rewrite IH; [by apply track_start_calls|].
  eapply prefix_not_nil; [apply track_stack_prefix|done].
Qed.

(** X3. A call adds its record to [start_calls] exactly when the stack of
    its thread is empty as it begins (a thread that has no stack yet
    included); nothing else is added to [start_calls], whatever the calls
    below it do. *)
Theorem wrapper_adds_root_iff_stack_empty fuel func tid a kw t st :
  execute fuel func a kw = Some t →
  ∃ st', wrapper fuel func tid a kw st = Some (outcome_of t, st')
         ∧ start_calls st'
           = start_calls st ++ match call_stack_of tid st with
                               | [] => [length (heap st)]
                               | _ :: _ => []
                               end.
Proof.
  intros Ht. exists (track tid t st). split; [by apply wrapper_track|].
  destruct t as [a' kw' subs o]. rewrite <- (start_calls_enter tid a' kw').
  rewrite <- (foldl_track_start_calls tid subs (enter tid a' kw' st))
    by (rewrite call_stack_of_enter; by destruct (call_stack_of tid st)).
  simpl. destruct o as [r|e]; [|done].
  destruct (leave tid r _) as [st3|] eqn:Hl; simpl; [|done].
  by rewrite (start_calls_leave _ _ _ _ Hl).
Qed.

(** ** Other threads *)

(** X4. A call on a thread, whatever happens in it, leaves the entry of
    every other thread in [_call_stacks] as it was: no stack of another
    thread is made, pushed to or popped. *)
Theorem wrapper_leaves_other_threads fuel func tid tid' a kw t st :
  tid ≠ tid' →
  execute fuel func a kw = Some t →
  ∃ st', wrapper fuel func tid a kw st = Some (outcome_of t, st')
         ∧ _call_stacks st' !! tid' = _call_stacks st !! tid'.
Proof.
  intros Hne Ht. exists (track tid t st). split; [by apply wrapper_track|].
  apply (track_invariant tid
           (λ s, _call_stacks s !! tid' = _call_stacks st !! tid')); [| |done].
  - intros a' kw' s Hs. unfold enter.
    destruct (last (call_stack_of tid s)); simpl; by rewrite lookup_insert_ne.
  - intros r s s' Hs. unfold leave.
    destruct (last (call_stack_of tid s)); [|done].
    intros [= <-]. simpl. by rewrite lookup_insert_ne.
Qed.

(** ** Links *)

Lemma add_callee_lookup h self callee i :
  add_callee self callee h !! i
  = (λ r, (if decide (callee = i) then set_caller (Some self) else id)
            ((if decide (self = i) then append_callee callee else id) r))
    <$> h !! i.
Proof.
  unfold add_callee.
  destruct (decide (callee = i)) as [->|Hc], (decide (self = i)) as [->|Hs].
  - rewrite !list_lookup_alter_eq. by destruct (h !! i).
  - rewrite list_lookup_alter_eq, list_lookup_alter_ne by done.
    by destruct (h !! i).
  - rewrite list_lookup_alter_ne, list_lookup_alter_eq by done.
    by destruct (h !! i).
  - rewrite !list_lookup_alter_ne by done. by destruct (h !! i).
Qed.

Lemma add_callee_before h self callee i r' :
  add_callee self callee h !! i = Some r' →
  ∃ r, h !! i = Some r
       ∧ callees r' = callees r ++ (if decide (self = i) then [callee] else [])
       ∧ caller r' = (if decide (callee = i) then Some self else caller r).
Proof.
  rewrite add_callee_lookup. destruct (h !! i) as [r|]; [|done].
  intros [= <-]. exists r. split; [done|].
  repeat case_decide; simpl; by rewrite ?app_nil_r.
Qed.

Lemma add_callee_after h self callee i r :
  h !! i = Some r →
  ∃ r', add_callee self callee h !! i = Some r'
        ∧ callees r' = callees r ++ (if decide (self = i) then [callee] else [])
        ∧ caller r' = (if decide (callee = i) then Some self else caller r).
Proof.
  intros Hr. rewrite add_callee_lookup, Hr. eexists. split; [done|].
  repeat case_decide; simpl; by rewrite ?app_nil_r.
Qed.

(** X5. In a store in which caller and callees agree, attaching a record
    that nothing refers to yet to a record of the store gives a store in
    which caller and callees agree. *)
Theorem add_callee_keeps_links h self callee rs :
  linked h → detached h callee → h !! self = Some rs →
  linked (add_callee self callee h).
Proof.
  intros (Hup & Hdown & Hnd) [(rc0 & Hc0 & Hnone & Hnil) Hfree] Hself.
  split_and!.
  - intros c rc p (r & Hr & Hcs & Hcl)%add_callee_before Hp.
    rewrite Hcl in Hp. case_decide as Hc.
    + injection Hp as <-. subst c.
      destruct (add_callee_after h self callee self rs Hself)
        as (rp & Hrp & Hcsp & _).
      exists rp. split; [done|]. rewrite Hcsp, decide_True by done.
      apply elem_of_app. right. by left.
    + destruct (Hup c r p Hr Hp) as (rp & Hrp & Hin).
      destruct (add_callee_after h self callee p rp Hrp)
        as (rp' & Hrp' & Hcsp & _).
      exists rp'. split; [done|]. rewrite Hcsp. apply elem_of_app. by left.
  - intros p rp c (r & Hr & Hcs & Hcl)%add_callee_before Hin.
    rewrite Hcs in Hin. apply elem_of_app in Hin as [Hin|Hin].
    + destruct (Hdown p r c Hr Hin) as (rc & Hrc & Hcaller).
      assert (callee ≠ c) as Hne by (intros <-; by apply (Hfree p r)).
      destruct (add_callee_after h self callee c rc Hrc)
        as (rc' & Hrc' & _ & Hclc).
      exists rc'. split; [done|]. by rewrite Hclc, decide_False.
    + case_decide as Hs; [|by apply elem_of_nil in Hin].
      apply list_elem_of_singleton in Hin as ->. subst p.
      destruct (add_callee_after h self callee callee rc0 Hc0)
        as (rc' & Hrc' & _ & Hclc).
      exists rc'. split; [done|]. by rewrite Hclc, decide_True.
  - intros p rp (r & Hr & Hcs & _)%add_callee_before. rewrite Hcs.
    case_decide; [|rewrite app_nil_r; by eapply Hnd].
    apply NoDup_app. split_and!; [by eapply Hnd| |apply NoDup_singleton].
    intros x Hx ->%list_elem_of_singleton. by apply (Hfree p r).
Qed.

Lemma linked_snoc h a kw :
  linked h →
  linked (h ++ [RecursiveCall_init a kw])
  ∧ detached (h ++ [RecursiveCall_init a kw]) (length h).
Proof.
  intros (Hup & Hdown & Hnd).
  assert (∀ i r, (h ++ [RecursiveCall_init a kw]) !! i = Some r →
            h !! i = Some r ∨ i = length h ∧ r = RecursiveCall_init a kw)
    as Hcases.
  { intros i r Hi. apply lookup_app_Some in Hi as [Hi|[Hge Hi]]; [by left|].
    right. apply list_lookup_singleton_Some in Hi as [Hi ->].
    split; [lia|done]. }
  assert (∀ p rp, h !! p = Some rp → length h ∉ callees rp) as Hfresh.
  { intros p rp Hp Hin. destruct (Hdown p rp _ Hp Hin) as (rc & Hrc & _).
    apply lookup_lt_Some in Hrc. lia. }
  split; [split_and!|split].
  - intros c rc p [Hc|[-> ->]]%Hcases Hp; [|done].
    destruct (Hup c rc p Hc Hp) as (rp & Hrp & Hin).
    exists rp. split; [by apply lookup_app_l_Some|done].
  - intros p rp c [Hp|[-> ->]]%Hcases Hin; [|by apply elem_of_nil in Hin].
    destruct (Hdown p rp c Hp Hin) as (rc & Hrc & Hcaller).
    exists rc. split; [by apply lookup_app_l_Some|done].
  - intros p rp [Hp|[-> ->]]%Hcases; [by eapply Hnd|constructor].
  - exists (RecursiveCall_init a kw). split; [by apply list_lookup_middle|done].
  - intros p rp [Hp|[-> ->]]%Hcases; [by eapply Hfresh|]. simpl.
    apply not_elem_of_nil.
Qed.

Lemma linked_enter tid a kw st :
  linked (heap st) → stack_in_store tid st →
  linked (heap (enter tid a kw st)).
Proof.
  intros Hl Hs. destruct (linked_snoc (heap st) a kw Hl) as [Hl' Hd].
  unfold enter. destruct (last (call_stack_of tid st)) as [top|] eqn:Hlast;
    simpl; [|done].
  assert (top < length (heap st)) as Htop
    by by apply Hs, last_Some_elem_of.
  destruct (lookup_lt_is_Some_2 (heap st) top Htop) as [rs Hrs].
  eapply add_callee_keeps_links; [done..|by apply lookup_app_l_Some].
Qed.

Lemma linked_leave tid r st st' :
  linked (heap st) → leave tid r st = Some st' → linked (heap st').
Proof.
  intros (Hup & Hdown & Hnd) Hl.
  assert (∀ c r', heap st' !! c = Some r' →
            ∃ rc, heap st !! c = Some rc ∧ caller r' = caller rc
                  ∧ callees r' = callees rc) as Hback.
  { intros c r' Hc. pose proof (lookup_lt_Some _ _ _ Hc) as Hlt.
    rewrite (length_heap_leave _ _ _ _ Hl) in Hlt.
    destruct (lookup_lt_is_Some_2 _ _ Hlt) as [rc Hrc].
    destruct (leave_old tid r st st' c rc Hl Hrc) as (r2 & Hr2 & _ & _ & ? & ? & _).
    exists rc. split; [done|]. split; congruence. }
  assert (∀ c rc, heap st !! c = Some rc →
            ∃ r', heap st' !! c = Some r' ∧ caller r' = caller rc
                  ∧ callees r' = callees rc) as Hforth.
  { intros c rc Hrc.
    destruct (leave_old tid r st st' c rc Hl Hrc) as (r2 & Hr2 & _ & _ & ? & ? & _).
    eauto. }
  split_and!.
  - intros c rc' p (rc & Hrc & Hcl & _)%Hback Hp. rewrite Hcl in Hp.
    destruct (Hup c rc p Hrc Hp) as (rp & Hrp & Hin).
    destruct (Hforth p rp Hrp) as (rp' & Hrp' & _ & Hcs).
    exists rp'. split; [done|]. by rewrite Hcs.
  - intros p rp' c (rp & Hrp & _ & Hcs)%Hback Hin. rewrite Hcs in Hin.
    destruct (Hdown p rp c Hrp Hin) as (rc & Hrc & Hcaller).
    destruct (Hforth c rc Hrc) as (rc' & Hrc' & Hcl & _).
    exists rc'. split; [done|]. by rewrite Hcl.
  - intros p rp' (rp & Hrp & _ & Hcs)%Hback. rewrite Hcs. by eapply Hnd.
Qed.

Lemma stack_in_store_enter tid a kw st :
  stack_in_store tid st → stack_in_store tid (enter tid a kw st).
Proof.
  intros Hs c. rewrite call_stack_of_enter, length_heap_enter.
  intros [Hc| ->%list_elem_of_singleton]%elem_of_app; [|lia].
  specialize (Hs c Hc). lia.
Qed.

Lemma stack_in_store_leave tid r st st' :
  stack_in_store tid st → leave tid r st = Some st' → stack_in_store tid st'.
Proof.
  intros Hs Hl c.
  rewrite (call_stack_of_leave _ _ _ _ Hl), (length_heap_leave _ _ _ _ Hl).
  intros Hc. apply Hs.
  destruct (call_stack_of tid st) as [|x l _] using rev_ind; [done|].
  rewrite removelast_snoc in Hc. apply elem_of_app. by left.
Qed.

(** X6. From a state in which caller and callees agree and the records on
    the stack of the thread are in the store, any call, failing calls below
    it or not, leads to such a state. *)
Theorem wrapper_keeps_links fuel func tid a kw t st :
  linked (heap st) → stack_in_store tid st →
  execute fuel func a kw = Some t →
  ∃ st', wrapper fuel func tid a kw st = Some (outcome_of t, st')
         ∧ linked (heap st') ∧ stack_in_store tid st'.
Proof.
  intros Hl Hs Ht. exists (track tid t st). split; [by apply wrapper_track|].
  apply (track_invariant tid (λ s, linked (heap s) ∧ stack_in_store tid s));
    [| |done].
  - intros a' kw' s [Hls Hss].
    split; [by apply linked_enter|by apply stack_in_store_enter].
  - intros r s s' [Hls Hss] Hleave.
    split; [by eapply linked_leave|by eapply stack_in_store_leave].
Qed.

(** X7. Whatever calls are made one after the other on a thread of a new
    tracker, and whichever of them or of the calls below them fail, caller
    and callees agree in the store they leave: a record that has a caller is
    among the callees of that caller and of no other record, once. *)
Theorem tracker_store_is_linked fuel func tid calls
    (ts : list (invocation value exn)) :
  Forall2 (λ c t, execute fuel func c.1 c.2 = Some t) calls ts →
  ∃ st, wrapper_seq fuel func tid calls CallTracker_init
        = Some (map outcome_of ts, st)
        ∧ linked (heap st).
Proof.
  intros Hexec. exists (track_all tid ts CallTracker_init).
  split; [by apply wrapper_seq_track|].
  assert (linked (heap (CallTracker_init (value := value)))
          ∧ stack_in_store tid (CallTracker_init (value := value))) as Hinit.
  { split; [split_and!|]; simpl.
    - intros c rc p Hc. by rewrite lookup_nil in Hc.
    - intros p rp c Hp. by rewrite lookup_nil in Hp.
    - intros p rp Hp. by rewrite lookup_nil in Hp.
    - by intros c ?%elem_of_nil. }
  unfold track_all. clear Hexec. revert Hinit.
  generalize (CallTracker_init (value := value)).
  induction ts as [|t ts IH]; intros st [Hl Hs]; simpl; [done|].
  apply IH.
  apply (track_invariant tid (λ s, linked (heap s) ∧ stack_in_store tid s));
    [| |done].
  - intros a' kw' s [Hls Hss].
    split; [by apply linked_enter|by apply stack_in_store_enter].
  - intros r s s' [Hls Hss] Hleave.
    split; [by eapply linked_leave|by eapply stack_in_store_leave].
Qed.

(** ** A call below other calls *)

(** X8. A call made from any state in which the top of the stack, if any,
    is in the store, all invocations in and below it returning: the stack of
    the thread is afterwards as it was before; the store has one more record
    for each invocation, after those it had; these records hold the tree of
    the call, below the record that was on top of the stack; that record has
    the call as one more callee, at the end; no other record has changed. *)
Theorem wrapper_call_adds_its_tree fuel func tid a kw t st :
  execute fuel func a kw = Some t →
  normal t →
  top_in_store tid st →
  ∃ st', wrapper fuel func tid a kw st = Some (outcome_of t, st')
    ∧ call_stack_of tid st' = call_stack_of tid st
    ∧ length (heap st') = length (heap st) + size t
    ∧ embeds (heap st') (last (call_stack_of tid st))
        (label (length (heap st)) t)
    ∧ (∀ top rt, last (call_stack_of tid st) = Some top →
         heap st !! top = Some rt →
         heap st' !! top = Some (append_callee (length (heap st)) rt))
    ∧ (∀ c, last (call_stack_of tid st) ≠ Some c → c < length (heap st) →
         heap st' !! c = heap st !! c).
Proof.
  intros Ht Hnormal Htop. exists (track tid t st).
  split; [by apply wrapper_track|].
  rewrite (track_normal tid t Hnormal st Htop). unfold after_normal. simpl.
  assert (length (attach (last (call_stack_of tid st)) (length (heap st))
                    (heap st)) = length (heap st)) as Hlen.
  { destruct (last (call_stack_of tid st)); simpl; by rewrite ?length_alter. }
  split_and!.
  - unfold call_stack_of at 1. simpl. by rewrite lookup_insert_eq.
  - by rewrite length_app, length_records, Hlen.
  - rewrite <- (app_nil_r (records _ _ t)). by apply embeds_records.
  - intros top rt Hlast Hrt. rewrite Hlast. simpl.
    rewrite lookup_app_l by (rewrite length_alter; by eapply lookup_lt_Some).
    by rewrite list_lookup_alter_eq, Hrt.
  - intros c Hc Hlt. rewrite lookup_app_l by by rewrite Hlen.
    destruct (last (call_stack_of tid st)) as [top|]; simpl; [|done].
    apply list_lookup_alter_ne. by intros ->.
Qed.

End Tracker_invariants.

(** * The printer once more *)

Section Printer_further.

Context {value exn : Type} `{!Repr value}.

(** ** Printing what the tracker has built *)

Lemma elem_of_label_all (ts : list (invocation value exn)) :
  ∀ n ct, ct ∈ label_all n ts →
          ∃ m (t : invocation value exn), ct = label m t.
Proof.
  induction ts as [|t ts IH]; intros n ct; simpl.
  - by intros ?%elem_of_nil.
  - intros [->|Hct]%elem_of_cons; eauto.
Qed.

Lemma Forall2_map_root (P : nat → call_tree value → Prop)
    (l : list (call_tree value)) :
  (∀ ct, ct ∈ l → P (root ct) ct) → Forall2 P (map root l) l.
Proof.
  induction l as [|ct l IH]; intros HP; simpl; constructor.
  - apply HP. by left.
  - apply IH. intros ct' Hct'. apply HP. by right.
Qed.

(** X9. After calls made one after the other on a thread of a new tracker,
    all invocations returning, [pretty_print] on any of the records of
    [start_calls] ends and prints the rendering of the tree of the
    corresponding call: its arguments, its result and the calls below it,
    in the order in which they were made. *)
Theorem tracked_roots_print_their_trees fuel func tid calls
    (ts : list (invocation value exn)) (w : Z) :
  Forall2 (λ c t, execute fuel func c.1 c.2 = Some t) calls ts →
  Forall normal ts →
  ∃ st, wrapper_seq fuel func tid calls CallTracker_init
        = Some (map outcome_of ts, st)
        ∧ Forall2 (λ c ct, ∀ turns, 2 * nodes ct ≤ turns →
                     pretty_print turns (heap st) c w = Some (render w 0 ct))
            (start_calls st) (label_all 0 ts).
Proof.
  intros Hexec Hnormal. exists (track_all tid ts CallTracker_init).
  split; [by apply wrapper_seq_track|].
  destruct (track_all_normal tid ts Hnormal CallTracker_init)
    as (Hheap & Hroots & _); [done|].
  simpl in Hheap, Hroots. rewrite Hroots, <- map_root_label_all.
  apply Forall2_map_root. intros ct Hct turns Hturns.
  assert (embeds (heap (track_all tid ts CallTracker_init)) None ct) as Hemb.
  { rewrite Hheap, <- (app_nil_r (records_all 0 None ts)).
    pose proof (embeds_records_all' ts 0 None [] [] eq_refl) as Hall.
    rewrite Forall_forall in Hall. by apply Hall. }
  assert (NoDup (refs ct)) as Hnd.
  { destruct (elem_of_label_all ts 0 ct Hct) as (m & t & ->).
    rewrite refs_label. apply NoDup_seq. }
  destruct (pp_loop_root _ w ct Hemb Hnd) as (its & Hloop & _).
  pose proof (tree_turns_nodes ct) as Hn.
  unfold pretty_print. rewrite Hloop by lia. done.
Qed.

(** ** The cost of printing *)

Lemma pp_loop_short (h : list (RecursiveCall value)) (w : Z) n :
  ∀ fuel s s', pp_turns n h w s = Some s' → fuel < n →
               pp_loop fuel h w s = None.
Proof.
  induction n as [|n IH]; intros fuel s s' Hturns Hlt; [lia|].
  simpl in Hturns. destruct (current s) as [cur|] eqn:Hcur; [|done].
  destruct (pp_iteration h w cur s) as [s1|] eqn:Hit; [|done].
  destruct fuel as [|fuel]; simpl; rewrite Hcur; [done|].
  rewrite Hit. apply (IH fuel s1 s'); [done|lia].
Qed.

(** X10. On the root of a tree of [n] distinct records the loop of
    [pretty_print] makes [2 * n - 1] turns, no fewer and no more: it has
    printed the tree when allowed that many turns, and has not ended when
    allowed fewer. *)
Theorem pretty_print_takes_two_turns_per_node
    (h : list (RecursiveCall value)) (w : Z) (t : call_tree value) :
  embeds h None t → NoDup (refs t) →
  ∀ fuel,
    pretty_print fuel h (root t) w
    = if decide (2 * nodes t - 1 ≤ fuel) then Some (render w 0 t) else None.
Proof.
  intros Hemb Hnd fuel.
  destruct (goes_through_new h w t None 0 Hemb Hnd ∅) as (its & Hrun & _).
  { intros x _. apply lookup_empty. }
  specialize (Hrun []). change (turns false t) with (tree_turns t) in Hrun.
  pose proof (tree_turns_nodes t) as Hn.
  unfold pretty_print, pp_start. case_decide as Hfuel.
  - by rewrite (pp_loop_turns h w (tree_turns t) fuel _ _ Hrun eq_refl)
      by lia.
  - by rewrite (pp_loop_short h w (tree_turns t) fuel _ _ Hrun) by lia.
Qed.

(** ** Where nothing is indented *)

(** X11. Above the record [pretty_print] was called on (a negative depth)
    with a width that is not negative, and at a depth that is not negative
    with a width that is not positive, [_indent_from_depth] gives the empty
    string, hanging or not. *)
Theorem no_indentation d i (hanging : bool) :
  (d < 0 ∧ 0 ≤ i)%Z ∨ (0 ≤ d ∧ i ≤ 0)%Z →
  _indent_from_depth d i hanging = "".
Proof.
  intros Hdi. unfold _indent_from_depth, str_mul.
  assert (∀ z, (z ≤ 0)%Z → str_repeat " " (Z.to_nat z) = "") as Hempty.
  { intros z Hz. by replace (Z.to_nat z) with 0 by lia. }
  apply Hempty. case_decide; destruct hanging; nia.
Qed.

(** ** The lines printed from below the root *)

Lemma foldr_sum_middle {A} (g : A → nat) (l l' : list A) x :
  foldr (λ y n, g y + n) 0 (l ++ x :: l')
  = foldr (λ y n, g y + n) 0 l + g x + foldr (λ y n, g y + n) 0 l'.
Proof. induction l as [|y l IH]; simpl; [lia|]. rewrite IH. lia. Qed.

Lemma length_concat_render (w d : Z) (l : list (call_tree value)) :
  length (concat (map (render w d) l))
  = 5 * foldr (λ t n, nodes t + n) 0 l + foldr (λ t n, parents t + n) 0 l.
Proof.
  induction l as [|t l IH]; simpl; [done|].
  rewrite length_app, IH, length_render. lia.
Qed.

Lemma length_render_fill (w d : Z) f (t : call_tree value) :
  length (render w d (fill f t))
  = 6 + length (concat (map (render w d) (elder f)))
    + length (render w d t)
    + length (concat (map (render w d) (younger f))).
Proof.
  rewrite !length_concat_render, !length_render. unfold fill.
  cbn [nodes parents]. rewrite !foldr_sum_middle.
  destruct (elder f ++ t :: younger f) eqn:Hl; [by destruct (elder f)|]. lia.
Qed.

(** The closing markers that come twice when [pretty_print] starts on [t]
    below the ancestors [ctx]. *)
Lemma length_climb (w : Z) (ctx : list (frame value)) :
  ∀ t d,
    length (render w 0 t) + length (climb w d t ctx)
    = length (render w 0 (plug ctx t))
      + match ctx with
        | [] => 0
        | _ :: ctx' => length (reclose w 0 t) + length ctx'
        end.
Proof.
  induction ctx as [|f ctx IH]; intros t d; simpl; [lia|].
  specialize (IH (fill f t) (d - 1)%Z).
  rewrite (length_render_fill w 0) in IH.
  rewrite !length_app. simpl. rewrite ?length_app. simpl.
  rewrite !length_concat_render in IH |- *.
  assert (length (reclose w (d + 1) t) = length (reclose w 0 t)) as ->
    by (unfold reclose; by destruct (children_of t)).
  assert (match ctx with
          | [] => 0
          | _ :: ctx' => length (reclose w 0 (fill f t)) + length ctx'
          end = length ctx) as Hctx.
  { destruct ctx as [|g ctx']; [done|]. simpl. unfold reclose. simpl.
    by destruct (elder f). }
  lia.
Qed.

(** X12. Called on a record below the root of a tree, [pretty_print] ends
    having printed as many lines as the rendering of the whole tree has,
    and one closing marker more for each ancestor of the record but the
    nearest, and for the nearest if the record has callees. *)
Theorem pretty_print_from_below_prints_whole_tree
    (h : list (RecursiveCall value)) (w : Z) (ctx : list (frame value))
    (t : call_tree value) :
  embeds h None (plug ctx t) → NoDup (refs (plug ctx t)) →
  ∃ n out,
    (∀ fuel, n ≤ fuel → pretty_print fuel h (root t) w = Some out)
    ∧ length out
      = 5 * nodes (plug ctx t) + parents (plug ctx t)
        + match ctx with
          | [] => 0
          | _ :: ctx' =>
              match children_of t with [] => 0 | _ :: _ => 1 end
              + length ctx'
          end.
Proof.
  intros Hemb Hnd.
  pose proof (embeds_plug h ctx t Hemb) as Ht.
  pose proof (NoDup_refs_plug ctx t Hnd) as Hndt.
  destruct (goes_through_new h w t (parent_of ctx) 0 Ht Hndt ∅)
    as (its1 & Hrun1 & Hframe & Hpost).
  { intros x _. apply lookup_empty. }
  destruct (pp_turns_climb h w ctx t (-1) its1 Hemb Hnd Hpost)
    as (n2 & its2 & Hrun2).
  { intros y _ Hy. by rewrite Hframe, lookup_empty. }
  exists (tree_turns t + n2), (render w 0 t ++ climb w (-1) t ctx). split.
  - intros fuel Hfuel. unfold pretty_print.
    rewrite (pp_loop_turns h w (tree_turns t + n2) fuel _
               {| current := None; depth := (-1 - Z.of_nat (length ctx))%Z;
                  callee_iterators := its2;
                  output := render w 0 t ++ climb w (-1) t ctx |});
      [done| |done|done].
    change (turns false t) with (tree_turns t) in Hrun1.
    rewrite pp_turns_add. unfold pp_start.
    rewrite (Hrun1 []). cbn [mbind option_bind].
    replace (0 - 1)%Z with (-1)%Z by lia. by rewrite Hrun2.
  - rewrite length_app, length_climb, length_render.
    destruct ctx as [|f ctx']; [done|]. unfold reclose.
    by destruct (children_of t).
Qed.

End Printer_further.

(** * The one-line representation *)

Section Repr_properties.

Context {value : Type} `{!Repr value} `{!Str value}.

(** X13. [__repr__] of a record, root or not, is the representation of the
    tree below the record and of nothing above it; it calls itself as deep
    as that tree is, and gives nothing when allowed less. *)
Theorem repr_recurses_to_the_leaves (h : list (RecursiveCall value)) p
    (t : call_tree value) :
  embeds h p t →
  ∀ fuel, RecursiveCall_repr fuel h (root t)
          = if decide (levels t ≤ fuel) then Some (repr_text t) else None.
Proof.
  revert p. induction t as [c a kw res children IH] using call_tree_forall_ind.
  intros p [Hc Hch]%embeds_inv [|fuel]; [done|].
  cbn [RecursiveCall_repr root]. rewrite Hc. cbn [callees args kwargs result].
  assert (mapM (RecursiveCall_repr fuel h) (map root children)
          = if decide (foldr (λ t' n, levels t' `max` n) 0 children ≤ fuel)
            then Some (map repr_text children) else None) as ->.
  { clear Hc. induction children as [|t l IHl]; [done|].
    apply Forall_cons in IH as [IHt IHrest].
    apply Forall_cons in Hch as [Ht Hrest].
    cbn [map foldr]. change (mapM ?f (?x :: ?k))
      with (y ← f x; k' ← mapM f k; mret (y :: k')).
    rewrite (IHt (Some c) Ht fuel), (IHl IHrest Hrest).
    repeat case_decide; simpl; try done; lia. }
  cbn [levels repr_text]. repeat case_decide; try done; lia.
Qed.

End Repr_properties.

(** ** The further properties on the instances *)

Lemma after_failure_is_reached :
  wrapper 1 checked 1%Z [(-1)%Z] [] CallTracker_init
  = Some (Raised (Failure "ValueError"), after_failure).
Proof. reflexivity. Qed.

Lemma wrapper_keeps_history_after_failure :
  ∃ st', wrapper 1 checked 1%Z [5%Z] [] after_failure
         = Some (Returned 5%Z, st')
         ∧ kept (heap after_failure) (heap st')
         ∧ ∃ r, heap st' !! 1 = Some r ∧ args r = [5%Z] ∧ kwargs r = [].
Proof.
  exact (wrapper_keeps_history 1 checked 1%Z [5%Z] []
           (Invocation [5%Z] [] [] (Returned 5%Z)) after_failure eq_refl).
Defined.



Lemma wrapper_adds_root_iff_stack_empty_after_failure :
  ∃ st', wrapper 1 checked 1%Z [5%Z] [] after_failure
         = Some (Returned 5%Z, st')
         ∧ start_calls st' = [0] ++ [].
Proof.
  exact (wrapper_adds_root_iff_stack_empty 1 checked 1%Z [5%Z] []
           (Invocation [5%Z] [] [] (Returned 5%Z)) after_failure eq_refl).
Defined.

Lemma wrapper_leaves_other_threads_after_failure :
  ∃ st', wrapper 1 checked 2%Z [5%Z] [] after_failure
         = Some (Returned 5%Z, st')
         ∧ _call_stacks st' !! 1%Z = Some [0].
Proof.
  refine (wrapper_leaves_other_threads 1 checked 2%Z 1%Z [5%Z] []
            (Invocation [5%Z] [] [] (Returned 5%Z)) after_failure _ eq_refl).
  lia.
Defined.

Lemma spare_store_linked : linked spare_store.
Proof.
  split_and!.
  - intros [|[|[|c]]] rc p Hc Hp; simpl in Hc; try done;
      injection Hc as <-; simpl in Hp; try done.
    injection Hp as <-. eexists. split; [done|]. simpl. by left.
  - intros [|[|[|p]]] rp c Hp Hc; simpl in Hp; try done;
      injection Hp as <-; simpl in Hc;
      try (by apply elem_of_nil in Hc).
    apply list_elem_of_singleton in Hc as ->. by eexists.
  - intros [|[|[|p]]] rp Hp; simpl in Hp; try done;
      injection Hp as <-; simpl; [apply NoDup_singleton|constructor..].
Defined.

Lemma spare_store_detached : detached spare_store 2.
Proof.
  split; [by eexists|].
  intros [|[|[|p]]] rp Hp; simpl in Hp; try done;
    injection Hp as <-; simpl;
    [by intros [=]%list_elem_of_singleton|apply not_elem_of_nil..].
Defined.

Lemma add_callee_keeps_links_spare : linked (add_callee 1 2 spare_store).
Proof.
  exact (add_callee_keeps_links spare_store 1 2 _ spare_store_linked
           spare_store_detached eq_refl).
Defined.

Lemma after_failure_linked : linked (heap after_failure).
Proof.
  split_and!.
  - intros [|c] rc p Hc Hp; simpl in Hc; try done. by injection Hc as <-.
  - intros [|p] rp c Hp Hc; simpl in Hp; try done.
    injection Hp as <-. by apply elem_of_nil in Hc.
  - intros [|p] rp Hp; simpl in Hp; try done. injection Hp as <-. constructor.
Defined.

Lemma after_failure_stack_in_store : stack_in_store 1%Z after_failure.
Proof. intros c ->%list_elem_of_singleton. simpl. lia. Defined.

Lemma wrapper_keeps_links_after_failure :
  ∃ st', wrapper 2 guarded 1%Z [0%Z] [] after_failure
         = Some (Returned 7%Z, st')
         ∧ linked (heap st') ∧ stack_in_store 1%Z st'.
Proof.
  exact (wrapper_keeps_links 2 guarded 1%Z [0%Z] []
           (Invocation [0%Z] []
              [Invocation [(-1)%Z] [] [] (Raised (Failure "ValueError"))]
              (Returned 7%Z))
           after_failure after_failure_linked after_failure_stack_in_store
           eq_refl).
Defined.

Lemma tracker_store_is_linked_with_failures :
  ∃ st, wrapper_seq 2 guarded 1%Z [([(-1)%Z], []); ([0%Z], [])]
          CallTracker_init
        = Some ([Raised (Failure "ValueError"); Returned 7%Z], st)
        ∧ linked (heap st).
Proof.
  apply (tracker_store_is_linked 2 guarded 1%Z [([(-1)%Z], []); ([0%Z], [])]
           [Invocation [(-1)%Z] [] [] (Raised (Failure "ValueError"));
            Invocation [0%Z] []
              [Invocation [(-1)%Z] [] [] (Raised (Failure "ValueError"))]
              (Returned 7%Z)]).
  repeat constructor.
Defined.

Lemma wrapper_call_adds_its_tree_after_failure :
  ∃ st', wrapper 3 fib 1%Z [2%Z] [] after_failure = Some (Returned 1%Z, st')
    ∧ call_stack_of 1%Z st' = [0]
    ∧ length (heap st') = 4
    ∧ embeds (heap st') (Some 0)
        (Node 1 [2%Z] [] (Value 1%Z)
           [Node 2 [1%Z] [] (Value 1%Z) []; Node 3 [0%Z] [] (Value 0%Z) []])
    ∧ (∀ top rt, Some 0 = Some top →
         heap after_failure !! top = Some rt →
         heap st' !! top = Some (append_callee 1 rt))
    ∧ (∀ c, Some 0 ≠ Some c → c < 1 →
         heap st' !! c = heap after_failure !! c).
Proof.
  apply (wrapper_call_adds_its_tree 3 fib 1%Z [2%Z] []
           (Invocation [2%Z] []
              [Invocation [1%Z] [] [] (Returned 1%Z);
               Invocation [0%Z] [] [] (Returned 0%Z)] (Returned 1%Z))
           after_failure).
  - reflexivity.
  - repeat constructor; simpl; eauto.
  - intros top Htop. vm_compute in Htop. injection Htop as <-. simpl. lia.
Defined.

Lemma tracked_roots_print_their_trees_fib :
  ∃ st, wrapper_seq 4 fib 1%Z [([3%Z], [])] CallTracker_init
        = Some ([Returned 2%Z], st)
        ∧ Forall2 (λ c ct, ∀ turns, 2 * nodes ct ≤ turns →
                     pretty_print turns (heap st) c 4 = Some (render 4 0 ct))
            (start_calls st) [fib3_tree].
Proof.
  apply (tracked_roots_print_their_trees 4 fib 1%Z [([3%Z], [])]
           [Invocation [3%Z] []
              [Invocation [2%Z] []
                 [Invocation [1%Z] [] [] (Returned 1%Z);
                  Invocation [0%Z] [] [] (Returned 0%Z)] (Returned 1%Z);
               Invocation [1%Z] [] [] (Returned 1%Z)] (Returned 2%Z)] 4).
  - repeat constructor.
  - repeat constructor; simpl; eauto.
Defined.

Lemma pretty_print_takes_two_turns_per_node_fib3 :
  pretty_print 8 fib3_store 0 4 = None
  ∧ pretty_print 9 fib3_store 0 4 = Some (render 4 0 fib3_tree).
Proof.
  split.
  - exact (pretty_print_takes_two_turns_per_node fib3_store 4 fib3_tree
             fib3_embeds fib3_NoDup 8).
  - exact (pretty_print_takes_two_turns_per_node fib3_store 4 fib3_tree
             fib3_embeds fib3_NoDup 9).
Defined.

Lemma no_indentation_above_start :
  _indent_from_depth (-1) 4 true = "" ∧ _indent_from_depth 3 (-2) false = "".
Proof.
  split.
  - apply (no_indentation (-1) 4 true). left. lia.
  - apply (no_indentation 3 (-2) false). right. lia.
Defined.

Lemma pretty_print_from_below_prints_whole_tree_fib2 :
  ∃ n out,
    (∀ fuel, n ≤ fuel → pretty_print fuel fib3_store 1 4 = Some out)
    ∧ length out = 28.
Proof.
  exact (pretty_print_from_below_prints_whole_tree fib3_store 4 [fib3_frame]
           fib2_tree fib3_embeds fib3_NoDup).
Defined.

Lemma repr_recurses_to_the_leaves_fib2 :
  RecursiveCall_repr 1 fib3_store 1 = None
  ∧ RecursiveCall_repr 2 fib3_store 1
    = Some ("<RecursiveCall callees=["
            +:+ "<RecursiveCall callees=[] args=(1,) kwargs={} result=1), "
            +:+ "<RecursiveCall callees=[] args=(0,) kwargs={} result=0)"
            +:+ "] args=(2,) kwargs={} result=1)").
Proof.
  assert (embeds fib3_store (Some 0) fib2_tree) as Hemb
    by (repeat constructor).
  split.
  - exact (repr_recurses_to_the_leaves fib3_store (Some 0) fib2_tree Hemb 1).
  - refine (eq_trans (repr_recurses_to_the_leaves fib3_store (Some 0)
                        fib2_tree Hemb 2) _).
    vm_compute. reflexivity.
Defined.
